(** * Grouping of API declarations (packages/kbn-docs-utils/src/api_docs/utils.ts)

    The functions [createEmptyScope], [addApiDeclarationToScope],
    [groupPluginApi] and [countScopeApi] of the documentation utilities,
    embedded over an explicit object store.  The TypeScript code builds one
    scope object whose six array fields are mutated in place with [push] and
    whose two lifecycle slots are assigned; the store keeps the arrays and
    the scope objects as separate cells, so that aliasing between the input
    array, the arrays of a scope and the scope itself is visible in the
    statements. *)

From Stdlib Require Import Ascii.
From stdpp Require Import gmap strings list fin_maps.

(** ** Data model *)

(** Modelled from the spec: the declarations of [Lifecycle], [TypeKind] and
    [ApiDeclaration] live in [./types], which is not part of the sources at
    hand.  The member names [SETUP], [START], [ClassKind], [InterfaceKind],
    [EnumKind], [FunctionKind] and [ObjectKind] are the ones the code of
    [addApiDeclarationToScope] compares against; every other kind tag is
    [OtherKind], and an absent tag is [None]. *)
Inductive Lifecycle : Type :=
  | START
  | SETUP.

Inductive TypeKind : Type :=
  | ClassKind
  | FunctionKind
  | ObjectKind
  | EnumKind
  | InterfaceKind
  | OtherKind (tag : string).

(** A declaration is never written to by the functions below: it is only
    inspected ([lifecycle], [type]) and stored, so it is embedded as a
    value.  [label] and [signature] are payload. *)
Record ApiDeclaration : Type := {
  label : string;
  type : option TypeKind;
  lifecycle : option Lifecycle;
  signature : list string
}.

#[global] Instance Lifecycle_eq_dec : EqDecision Lifecycle.
Proof. solve_decision. Defined.

#[global] Instance TypeKind_eq_dec : EqDecision TypeKind.
Proof. solve_decision. Defined.

#[global] Instance ApiDeclaration_eq_dec : EqDecision ApiDeclaration.
Proof. solve_decision. Defined.

(** ** The object store *)

Abbreviation loc := positive.

(** The scope object: the two optional lifecycle slots hold a declaration,
    the six sequence fields hold a reference to an array. *)
Record ScopeApi : Type := {
  setup : option ApiDeclaration;
  start : option ApiDeclaration;
  classes : loc;
  functions : loc;
  interfaces : loc;
  objects : loc;
  enums : loc;
  misc : loc
}.

(** Arrays are dense: an array of length [n] has an element at each index
    below [n]. *)
Inductive object : Type :=
  | Arr (elems : list ApiDeclaration)
  | Scope (fields : ScopeApi).

Abbreviation heap := (gmap positive object).

(** Computations over the store; [None] is a run-time type error (a
    reference that does not hold the kind of object the code expects). *)
Definition M (A : Type) : Type := heap → option (A * heap).

#[global] Instance M_ret : MRet M := λ A a h, Some (a, h).

#[global] Instance M_bind : MBind M := λ A B k m h,
  match m h with
  | Some (a, h') => k a h'
  | None => None
  end.

Definition alloc (o : object) : M loc := λ h,
  let l := fresh (dom h) in Some (l, <[l := o]> h).

Definition read_array (a : loc) : M (list ApiDeclaration) := λ h,
  match h !! a with
  | Some (Arr xs) => Some (xs, h)
  | _ => None
  end.

Definition read_scope (s : loc) : M ScopeApi := λ h,
  match h !! s with
  | Some (Scope o) => Some (o, h)
  | _ => None
  end.

Definition write (l : loc) (o : object) : M unit := λ h,
  Some (tt, <[l := o]> h).

(** [a.push(x)]; the new length that [push] returns is dropped by every
    caller. *)
Definition push (a : loc) (x : ApiDeclaration) : M unit :=
  xs ← read_array a; write a (Arr (xs ++ [x])).

(** [scope.setup = declaration] and [scope.start = declaration]. *)
Definition with_setup (declaration : ApiDeclaration) (o : ScopeApi) : ScopeApi :=
  {| setup := Some declaration; start := start o;
     classes := classes o; functions := functions o;
     interfaces := interfaces o; objects := objects o;
     enums := enums o; misc := misc o |}.

Definition with_start (declaration : ApiDeclaration) (o : ScopeApi) : ScopeApi :=
  {| setup := setup o; start := Some declaration;
     classes := classes o; functions := functions o;
     interfaces := interfaces o; objects := objects o;
     enums := enums o; misc := misc o |}.

Definition assign_setup (scope : loc) (declaration : ApiDeclaration) : M unit :=
  o ← read_scope scope; write scope (Scope (with_setup declaration o)).

Definition assign_start (scope : loc) (declaration : ApiDeclaration) : M unit :=
  o ← read_scope scope; write scope (Scope (with_start declaration o)).

(** [scope.f.push(declaration)] for a sequence field [f]. *)
Definition push_field (f : ScopeApi → loc) (scope : loc)
    (declaration : ApiDeclaration) : M unit :=
  o ← read_scope scope; push (f o) declaration.

(** [Array.prototype.forEach]: the length is read once, the array is read
    again at every index, and an index that is no longer present is
    skipped. *)
Fixpoint forEach_from (arr : loc) (callbackfn : ApiDeclaration → M unit)
    (k n : nat) : M unit :=
  match n with
  | 0 => mret tt
  | S n' =>
      xs ← read_array arr;
      _ ← match xs !! k with
          | Some x => callbackfn x
          | None => mret tt
          end;
      forEach_from arr callbackfn (S k) n'
  end.

Definition forEach (arr : loc) (callbackfn : ApiDeclaration → M unit) : M unit :=
  xs ← read_array arr; forEach_from arr callbackfn 0 (length xs).

(** ** The functions of utils.ts *)

(** The object literal allocates its six arrays in the order the
    properties are written, then the scope object itself; [setup] and
    [start] are not set. *)
Definition createEmptyScope : M loc :=
  classes_ ← alloc (Arr []);
  functions_ ← alloc (Arr []);
  interfaces_ ← alloc (Arr []);
  enums_ ← alloc (Arr []);
  misc_ ← alloc (Arr []);
  objects_ ← alloc (Arr []);
  alloc (Scope {| setup := None; start := None;
                  classes := classes_; functions := functions_;
                  interfaces := interfaces_; objects := objects_;
                  enums := enums_; misc := misc_ |}).

Definition addApiDeclarationToScope (declaration : ApiDeclaration)
    (scope : loc) : M unit :=
  if decide (lifecycle declaration = Some SETUP) then
    assign_setup scope declaration
  else if decide (lifecycle declaration = Some START) then
    assign_start scope declaration
  else
    match type declaration with
    | Some ClassKind => push_field classes scope declaration
    | Some InterfaceKind => push_field interfaces scope declaration
    | Some EnumKind => push_field enums scope declaration
    | Some FunctionKind => push_field functions scope declaration
    | Some ObjectKind => push_field objects scope declaration
    | _ => push_field misc scope declaration
    end.

Definition groupPluginApi (declarations : loc) : M loc :=
  scope ← createEmptyScope;
  _ ← forEach declarations
        (λ declaration, addApiDeclarationToScope declaration scope);
  mret scope.

(** [api.setup ? 1 : 0] tests the slot for truthiness; a declaration is an
    object, hence truthy, and an unset slot is [undefined]. *)
Definition countScopeApi (api : loc) : M nat :=
  o ← read_scope api;
  classes_ ← read_array (classes o);
  interfaces_ ← read_array (interfaces o);
  functions_ ← read_array (functions o);
  objects_ ← read_array (objects o);
  enums_ ← read_array (enums o);
  misc_ ← read_array (misc o);
  mret ((match setup o with Some _ => 1 | None => 0 end) +
        (match start o with Some _ => 1 | None => 0 end) +
        length classes_ +
        length interfaces_ +
        length functions_ +
        length objects_ +
        length enums_ +
        length misc_).

(** ** Reading a scope off the store *)

(** The value of a scope object in a store: its two slots and the elements
    of the six arrays its fields refer to. *)
Record ScopeContents : Type := {
  c_setup : option ApiDeclaration;
  c_start : option ApiDeclaration;
  c_classes : list ApiDeclaration;
  c_functions : list ApiDeclaration;
  c_interfaces : list ApiDeclaration;
  c_objects : list ApiDeclaration;
  c_enums : list ApiDeclaration;
  c_misc : list ApiDeclaration
}.

Definition snapshot (s : loc) : M ScopeContents :=
  o ← read_scope s;
  classes_ ← read_array (classes o);
  functions_ ← read_array (functions o);
  interfaces_ ← read_array (interfaces o);
  objects_ ← read_array (objects o);
  enums_ ← read_array (enums o);
  misc_ ← read_array (misc o);
  mret {| c_setup := setup o; c_start := start o;
          c_classes := classes_; c_functions := functions_;
          c_interfaces := interfaces_; c_objects := objects_;
          c_enums := enums_; c_misc := misc_ |}.

Definition contents (h : heap) (s : loc) : option ScopeContents :=
  fst <$> snapshot s h.

Definition empty_contents : ScopeContents :=
  {| c_setup := None; c_start := None;
     c_classes := []; c_functions := []; c_interfaces := [];
     c_objects := []; c_enums := []; c_misc := [] |}.

(** The six sequences of a scope, and the eight places a declaration can
    be stored in. *)
Inductive Bucket : Type :=
  | Classes
  | Functions
  | Interfaces
  | Objects
  | Enums
  | Misc.

Inductive Place : Type :=
  | SetupSlot
  | StartSlot
  | InBucket (b : Bucket).

#[global] Instance Bucket_eq_dec : EqDecision Bucket.
Proof. solve_decision. Defined.

#[global] Instance Place_eq_dec : EqDecision Place.
Proof. solve_decision. Defined.

Definition field (b : Bucket) (o : ScopeApi) : loc :=
  match b with
  | Classes => classes o
  | Functions => functions o
  | Interfaces => interfaces o
  | Objects => objects o
  | Enums => enums o
  | Misc => misc o
  end.

Definition bucket (b : Bucket) (c : ScopeContents) : list ApiDeclaration :=
  match b with
  | Classes => c_classes c
  | Functions => c_functions c
  | Interfaces => c_interfaces c
  | Objects => c_objects c
  | Enums => c_enums c
  | Misc => c_misc c
  end.

(** [holds c p d]: declaration [d] is stored at place [p] of [c]. *)
Definition holds (c : ScopeContents) (p : Place) (d : ApiDeclaration) : Prop :=
  match p with
  | SetupSlot => c_setup c = Some d
  | StartSlot => c_start c = Some d
  | InBucket b => d ∈ bucket b c
  end.

(** The bucket named after a type tag, [Misc] for any other or no tag. *)
Definition bucket_of_type (t : option TypeKind) : Bucket :=
  match t with
  | Some ClassKind => Classes
  | Some InterfaceKind => Interfaces
  | Some EnumKind => Enums
  | Some FunctionKind => Functions
  | Some ObjectKind => Objects
  | Some (OtherKind _) | None => Misc
  end.

(** The place a declaration is meant for: the lifecycle tag first, then the
    type tag. *)
Definition place (d : ApiDeclaration) : Place :=
  match lifecycle d with
  | Some SETUP => SetupSlot
  | Some START => StartSlot
  | None => InBucket (bucket_of_type (type d))
  end.

(** The stable partition of a sequence by [place], with the last element
    for each of the two slots. *)
Definition meant_for (p : Place) (ds : list ApiDeclaration) : list ApiDeclaration :=
  filter (λ d, place d = p) ds.

Definition classified (ds : list ApiDeclaration) : ScopeContents :=
  {| c_setup := last (meant_for SetupSlot ds);
     c_start := last (meant_for StartSlot ds);
     c_classes := meant_for (InBucket Classes) ds;
     c_functions := meant_for (InBucket Functions) ds;
     c_interfaces := meant_for (InBucket Interfaces) ds;
     c_objects := meant_for (InBucket Objects) ds;
     c_enums := meant_for (InBucket Enums) ds;
     c_misc := meant_for (InBucket Misc) ds |}.

(** The number of declarations a scope stands for, as a function of its
    contents. *)
Definition size_of (c : ScopeContents) : nat :=
  (match c_setup c with Some _ => 1 | None => 0 end) +
  (match c_start c with Some _ => 1 | None => 0 end) +
  length (c_classes c) + length (c_interfaces c) + length (c_enums c) +
  length (c_functions c) + length (c_objects c) + length (c_misc c).

(** A scope object in a store, with the contents it stands for. *)
Definition represents (h : heap) (s : loc) (o : ScopeApi) (c : ScopeContents) : Prop :=
  h !! s = Some (Scope o) ∧ setup o = c_setup c ∧ start o = c_start c ∧
  ∀ b, h !! field b o = Some (Arr (bucket b c)).

(** The six sequence fields refer to six different arrays. *)
Definition separated (o : ScopeApi) : Prop :=
  ∀ b b', field b o = field b' o → b = b'.

(** Every sequence field refers to an array of the store. *)
Definition well_typed (h : heap) (o : ScopeApi) : Prop :=
  ∀ b, ∃ xs, h !! field b o = Some (Arr xs).

(** Sample declarations. *)
Definition decl (l : string) (t : option TypeKind) (lc : option Lifecycle) : ApiDeclaration :=
  {| label := l; type := t; lifecycle := lc; signature := [] |}.

Definition store_with (ds : list ApiDeclaration) : heap :=
  {[ 1%positive := Arr ds ]}.

(** The effect of storing one declaration, on the contents of a scope. *)
Definition append_to (b : Bucket) (d : ApiDeclaration) (c : ScopeContents) : ScopeContents :=
  {| c_setup := c_setup c; c_start := c_start c;
     c_classes := if decide (b = Classes) then c_classes c ++ [d] else c_classes c;
     c_functions := if decide (b = Functions) then c_functions c ++ [d] else c_functions c;
     c_interfaces := if decide (b = Interfaces) then c_interfaces c ++ [d] else c_interfaces c;
     c_objects := if decide (b = Objects) then c_objects c ++ [d] else c_objects c;
     c_enums := if decide (b = Enums) then c_enums c ++ [d] else c_enums c;
     c_misc := if decide (b = Misc) then c_misc c ++ [d] else c_misc c |}.

Definition with_c_setup (d : ApiDeclaration) (c : ScopeContents) : ScopeContents :=
  {| c_setup := Some d; c_start := c_start c;
     c_classes := c_classes c; c_functions := c_functions c;
     c_interfaces := c_interfaces c; c_objects := c_objects c;
     c_enums := c_enums c; c_misc := c_misc c |}.

Definition with_c_start (d : ApiDeclaration) (c : ScopeContents) : ScopeContents :=
  {| c_setup := c_setup c; c_start := Some d;
     c_classes := c_classes c; c_functions := c_functions c;
     c_interfaces := c_interfaces c; c_objects := c_objects c;
     c_enums := c_enums c; c_misc := c_misc c |}.

Definition put (d : ApiDeclaration) (c : ScopeContents) : ScopeContents :=
  match place d with
  | SetupSlot => with_c_setup d c
  | StartSlot => with_c_start d c
  | InBucket b => append_to b d c
  end.

(** The declarations of a sequence that carry a given lifecycle tag, in
    input order. *)
Definition tagged (lc : Lifecycle) (ds : list ApiDeclaration) : list ApiDeclaration :=
  filter (λ d, lifecycle d = Some lc) ds.

(** The declarations of a sequence without lifecycle tag whose type tag
    selects bucket [b], in input order. *)
Definition typed_for (b : Bucket) (ds : list ApiDeclaration) : list ApiDeclaration :=
  filter (λ d, lifecycle d = None ∧ bucket_of_type (type d) = b) ds.


(** ** Sample inputs *)

Definition two_setups : list ApiDeclaration :=
  [decl "first" (Some ClassKind) (Some SETUP);
   decl "second" (Some ClassKind) (Some SETUP)].

Definition one_of_each : list ApiDeclaration :=
  [decl "c" (Some ClassKind) None;
   decl "i" (Some InterfaceKind) None;
   decl "e" (Some EnumKind) None;
   decl "f" (Some FunctionKind) None;
   decl "o" (Some ObjectKind) None;
   decl "u" (Some (OtherKind "Unknown")) None].

Definition mixed : list ApiDeclaration :=
  [decl "setup" (Some ObjectKind) (Some SETUP);
   decl "f" (Some FunctionKind) None;
   decl "start" (Some ObjectKind) (Some START);
   decl "g" (Some FunctionKind) None;
   decl "t" None None].

(** A store with one empty scope object at reference 7 and its six arrays
    at references 1 to 6. *)
Definition sample_scope : ScopeApi :=
  {| setup := None; start := None;
     classes := 1; functions := 2; interfaces := 3;
     objects := 6; enums := 4; misc := 5 |}%positive.

Definition sample_store : heap :=
  <[7%positive := Scope sample_scope]>
    (<[6%positive := Arr []]> (<[5%positive := Arr []]> (<[4%positive := Arr []]>
      (<[3%positive := Arr []]> (<[2%positive := Arr []]> {[1%positive := Arr []]}))))).

(** A store with a scope object at reference 7 whose setup slot is set and
    whose classes, functions and misc arrays are not empty. *)
Definition filled_scope : ScopeApi :=
  {| setup := Some (decl "setup" (Some ObjectKind) (Some SETUP)); start := None;
     classes := 1; functions := 2; interfaces := 3;
     objects := 6; enums := 4; misc := 5 |}%positive.

Definition filled_store : heap :=
  <[7%positive := Scope filled_scope]>
    (<[6%positive := Arr []]>
      (<[5%positive := Arr [decl "t" None None]]>
        (<[4%positive := Arr []]>
          (<[3%positive := Arr []]>
            (<[2%positive := Arr [decl "f" (Some FunctionKind) None]]>
              {[1%positive := Arr [decl "c1" (Some ClassKind) None;
                                   decl "c2" (Some ClassKind) None]]}))))).

Definition filled_contents : ScopeContents :=
  {| c_setup := Some (decl "setup" (Some ObjectKind) (Some SETUP)); c_start := None;
     c_classes := [decl "c1" (Some ClassKind) None; decl "c2" (Some ClassKind) None];
     c_functions := [decl "f" (Some FunctionKind) None];
     c_interfaces := []; c_objects := []; c_enums := [];
     c_misc := [decl "t" None None] |}.

(** A store with a scope object at reference 7 whose classes and misc
    fields refer to one array, at reference 1. *)
Definition shared_scope : ScopeApi :=
  {| setup := None; start := None;
     classes := 1; functions := 2; interfaces := 3;
     objects := 6; enums := 4; misc := 1 |}%positive.

Definition shared_store : heap :=
  <[7%positive := Scope shared_scope]> sample_store.

(** ** Strings *)

(** A JavaScript string is embedded as the sequence of its code units, for
    code units below 256.  [toUpperCase] and [toLowerCase] are the case
    mappings of the ASCII letters; JavaScript maps code units above 127 by
    the Unicode tables, so every statement that applies them to text it
    does not control assumes [ascii_only]. *)
Definition is_upper (c : ascii) : bool :=
  (65 <=? nat_of_ascii c) && (nat_of_ascii c <=? 90).

Definition is_lower (c : ascii) : bool :=
  (97 <=? nat_of_ascii c) && (nat_of_ascii c <=? 122).

Definition upper_char (c : ascii) : ascii :=
  if is_lower c then ascii_of_nat (nat_of_ascii c - 32) else c.

Definition lower_char (c : ascii) : ascii :=
  if is_upper c then ascii_of_nat (nat_of_ascii c + 32) else c.

Fixpoint toUpperCase (s : string) : string :=
  match s with
  | EmptyString => EmptyString
  | String c s' => String (upper_char c) (toUpperCase s')
  end.

Fixpoint toLowerCase (s : string) : string :=
  match s with
  | EmptyString => EmptyString
  | String c s' => String (lower_char c) (toLowerCase s')
  end.

Fixpoint all_chars (P : ascii → bool) (s : string) : bool :=
  match s with
  | EmptyString => true
  | String c s' => P c && all_chars P s'
  end.

Fixpoint count_chars (P : ascii → bool) (s : string) : nat :=
  match s with
  | EmptyString => 0
  | String c s' => (if P c then 1 else 0) + count_chars P s'
  end.

Definition ascii_only (s : string) : bool :=
  all_chars (λ c, nat_of_ascii c <? 128) s.

(** [str.charAt(0)] and [str.slice(1)]. *)
Definition charAt0 (str : string) : string :=
  match str with
  | EmptyString => EmptyString
  | String c _ => String c EmptyString
  end.

Definition slice1 (str : string) : string :=
  match str with
  | EmptyString => EmptyString
  | String _ s' => s'
  end.

(** [str.replace(p, r)] for a pattern [p] of one character and a
    replacement without [$]: the first occurrence only. *)
Fixpoint replace_first (p : ascii) (r : string) (str : string) : string :=
  match str with
  | EmptyString => EmptyString
  | String c s' =>
      if Ascii.eqb c p then r +:+ s' else String c (replace_first p r s')
  end.

Definition capitalize (str : string) : string :=
  toUpperCase (charAt0 str) +:+ slice1 str.

(** [str.replace(/([A-Z])/g, '_$1')]: an underscore before every capital
    letter. *)
Fixpoint replace_capitals (str : string) : string :=
  match str with
  | EmptyString => EmptyString
  | String c s' =>
      if is_upper c then String "_" (String c (replace_capitals s'))
      else String c (replace_capitals s')
  end.

Definition camelToSnake (str : string) : string :=
  toLowerCase (replace_capitals str).

(** The callback of [snakeToCamel], applied to a match of [[-_][a-z]]. *)
Definition camel_group (group : string) : string :=
  replace_first "_" EmptyString (replace_first "-" EmptyString (toUpperCase group)).

Definition is_separator (c : ascii) : bool :=
  Ascii.eqb c "-" || Ascii.eqb c "_".

(** [str.replace(/([-_][a-z])/g, callback)]: the matches are found from
    left to right and do not overlap. *)
Fixpoint snakeToCamel (str : string) : string :=
  match str with
  | EmptyString => EmptyString
  | String c1 tl =>
      match tl with
      | EmptyString => String c1 EmptyString
      | String c2 rest =>
          if is_separator c1 && is_lower c2
          then camel_group (String c1 (String c2 EmptyString)) +:+ snakeToCamel rest
          else String c1 (snakeToCamel tl)
      end
  end.

(** No [-] or [_] stands directly before a lowercase letter: the pattern
    of [snakeToCamel] has no match. *)
Fixpoint no_separator_letter (s : string) : bool :=
  match s with
  | EmptyString => true
  | String c1 tl =>
      match tl with
      | EmptyString => true
      | String c2 _ => negb (is_separator c1 && is_lower c2)
      end && no_separator_letter tl
  end.

(** No [-] stands directly before a lowercase letter. *)
Fixpoint no_hyphen_letter (s : string) : bool :=
  match s with
  | EmptyString => true
  | String c1 tl =>
      match tl with
      | EmptyString => true
      | String c2 _ => negb (Ascii.eqb c1 "-" && is_lower c2)
      end && no_hyphen_letter tl
  end.

(** [path.startsWith(prefix)]. *)
Fixpoint startsWith (path prefix : string) : bool :=
  match prefix, path with
  | EmptyString, _ => true
  | String _ _, EmptyString => false
  | String p prefix', String c path' => Ascii.eqb c p && startsWith path' prefix'
  end.

(** The plugin record of [@kbn/dev-utils] is not part of the sources at
    hand: the code reads its [directory] only, the rest is carried along. *)
Record KibanaPlatformPlugin : Type := {
  directory : string;
  manifestId : string
}.

(** [plugins.find(...)]: the first plugin whose directory starts the
    path, [None] for [undefined]. *)
Definition getPluginForPath (path : string) (plugins : list KibanaPlatformPlugin)
    : option KibanaPlatformPlugin :=
  List.find (λ plugin, startsWith path (directory plugin)) plugins.

(** Modelled from the spec: the enum [ApiScope] and the type [AnchorLink]
    are declared in [./types], which is not part of the sources at hand.
    [CLIENT] and [SERVER] are the members [scopeAccessor] names; [COMMON]
    stands for every other member.  The string value of a member, which a
    template literal interpolates, is the parameter [scope_value]. *)
Inductive ApiScope : Type :=
  | CLIENT
  | SERVER
  | COMMON.



Abbreviation is_slash := (λ c : ascii, Ascii.eqb c "/").

(** [path.match] with the expression built from [dir], a folder name and
    a group of characters other than [/] followed by [/], reduced to the
    group, [None] for no match.  [dir] is [escapeRegExp(pluginDirectory)],
    the directory with every character that is special in a regular
    expression escaped, so the expression reads: the directory as it is
    written, then [/folder/], then as many characters other than [/] as
    there are (the group), then [/].  The group cannot give back
    characters to reach the final [/], since it holds none; a match is
    tried at every position from the left. *)
Fixpoint strip_prefix (prefix s : string) : option string :=
  match prefix, s with
  | EmptyString, _ => Some s
  | String _ _, EmptyString => None
  | String p prefix', String c s' =>
      if Ascii.eqb c p then strip_prefix prefix' s' else None
  end.

Fixpoint group_then_slash (s : string) : option string :=
  match s with
  | EmptyString => None
  | String c s' =>
      if Ascii.eqb c "/" then Some EmptyString
      else String c <$> group_then_slash s'
  end.

Definition match_here (literal s : string) : option string :=
  strip_prefix literal s ≫= group_then_slash.

Fixpoint match_first (literal s : string) : option string :=
  match match_here literal s with
  | Some group => Some group
  | None =>
      match s with
      | EmptyString => None
      | String _ s' => match_first literal s'
      end
  end.

Definition match_folder (pluginDirectory folder path : string) : option string :=
  match_first (pluginDirectory +:+ "/" +:+ folder +:+ "/") path.

Definition getServiceForPath (path pluginDirectory : string) : option string :=
  let publicMatchGroups := match_folder pluginDirectory "public" path in
  let serverMatchGroups := match_folder pluginDirectory "server" path in
  let commonMatchGroups := match_folder pluginDirectory "common" path in
  match publicMatchGroups with
  | Some group => Some group
  | None =>
      match serverMatchGroups with
      | Some group => Some group
      | None => commonMatchGroups
      end
  end.

Record ServiceInfo : Type := {
  serviceFolders : option (list string);
  apiPath : string;
  service_directory : string
}.

(** [getPluginApiDocId] returns the id; the line it writes with
    [log.debug] comes first in the pair.  [serviceFolders?.find] is
    [undefined] for an absent list, and an empty string is not truthy. *)
Definition getPluginApiDocId (id : string) (serviceInfo : option ServiceInfo)
    : list string * string :=
  let cleanName := replace_first "." "_" id in
  let '(logged, service) :=
    match serviceInfo with
    | Some info =>
        let serviceName :=
          getServiceForPath (apiPath info) (service_directory info) in
        let line :=
          "Service for path " +:+ apiPath info +:+ " and " +:+
          service_directory info +:+ " is " +:+ default "undefined" serviceName in
        let serviceFolder :=
          match serviceFolders info, serviceName with
          | Some folders, Some name => List.find (λ f, String.eqb f name) folders
          | _, _ => None
          end in
        ([line],
         match serviceFolder with
         | Some (String c f) => snakeToCamel (String c f)
         | _ => EmptyString
         end)
    | None => ([], EmptyString)
    end in
  (logged,
   "kib" +:+ (capitalize (snakeToCamel cleanName) +:+ capitalize service) +:+ "PluginApi").

(** ** Broken links (removeBrokenLinks, apiItemExists, scopeAccessor) *)

Module BrokenLinks.

(** Modelled from the spec: [Reference], [TextWithLinks], [ApiDeclaration]
    and [PluginApi] are declared in [./types], which is not part of the
    sources at hand.  The records have the fields the code below reads or
    writes; a reference that is kept is kept whole.  A signature is an
    array whose elements are strings or references.  [Declaration] is an
    [ApiDeclaration] as this function uses it, a mutable object with the
    fields [label] and [signature] (here [dec_label], [dec_signature]). *)
Record Reference : Type := {
  pluginId : string;
  scope : ApiScope;
  text : string
}.

Inductive SignaturePart : Type :=
  | Text (s : string)
  | Link (r : Reference).

Record Declaration : Type := {
  dec_label : string;
  dec_signature : option (list SignaturePart)
}.

(** The three arrays of a plugin's API hold references to declaration
    objects; the code never changes the arrays themselves. *)
Record PluginApi : Type := {
  id : string;
  client : list loc;
  server : list loc;
  common : list loc
}.

(** The objects the function mutates: the declarations, by reference, and
    the dictionary [missingApiItems], a plain object given by its own
    keys. *)
Record state : Type := {
  decls : gmap positive Declaration;
  missingApiItems : gmap string (list string)
}.

Definition R (A : Type) : Type := state → option (A * state).

#[global] Instance R_ret : MRet R := λ A a st, Some (a, st).

#[global] Instance R_bind : MBind R := λ A B k m st,
  match m st with
  | Some (a, st') => k a st'
  | None => None
  end.

Definition throw {A} : R A := λ _, None.

Definition read_decl (l : loc) : R Declaration := λ st,
  match decls st !! l with
  | Some d => Some (d, st)
  | None => None
  end.

(** [api.signature = sig]. *)
Definition write_signature (l : loc) (sig : list SignaturePart) : R unit := λ st,
  match decls st !! l with
  | Some d =>
      Some (tt, {| decls := <[l := {| dec_label := dec_label d; dec_signature := Some sig |}]> (decls st);
                   missingApiItems := missingApiItems st |})
  | None => None
  end.

(** The names of the properties that a plain object inherits from
    [Object.prototype]. *)
Definition object_prototype_keys : list string :=
  ["constructor"; "__defineGetter__"; "__defineSetter__"; "hasOwnProperty";
   "__lookupGetter__"; "__lookupSetter__"; "isPrototypeOf";
   "propertyIsEnumerable"; "toString"; "valueOf"; "__proto__";
   "toLocaleString"].

(** The two statements on [missingApiItems[key]]: create the array when
    the key is undefined, then push.  [missingApiItems] is a plain object:
    for a key that is not its own and names an inherited property, the
    value read is not [undefined], no array is created, the value has no
    [push] and the call throws. *)
Definition add_missing (key item : string) : R unit := λ st,
  match missingApiItems st !! key with
  | Some items =>
      Some (tt, {| decls := decls st;
                   missingApiItems := <[key := items ++ [item]]> (missingApiItems st) |})
  | None =>
      if decide (key ∈ object_prototype_keys) then None
      else Some (tt, {| decls := decls st;
                        missingApiItems := <[key := [item]]> (missingApiItems st) |})
  end.

(** An array method that calls back on every element in order, over an
    array the callback does not change. *)
Fixpoint forEach_array {A} (xs : list A) (callbackfn : A → R unit) : R unit :=
  match xs with
  | [] => mret tt
  | x :: xs' => _ ← callbackfn x; forEach_array xs' callbackfn
  end.

Fixpoint map_array {A B} (xs : list A) (callbackfn : A → R B) : R (list B) :=
  match xs with
  | [] => mret []
  | x :: xs' => y ← callbackfn x; ys ← map_array xs' callbackfn; mret (y :: ys)
  end.

(** [findIndex((dec) => dec.label === name) >= 0] over an array of
    declaration references. *)
Fixpoint has_label (name : string) (decs : list loc) : R bool :=
  match decs with
  | [] => mret false
  | l :: decs' =>
      dec ← read_decl l;
      if decide (dec_label dec = name) then mret true else has_label name decs'
  end.

(** [scopeAccessor] returns the name of one of the three arrays; the
    embedding returns the field. *)
Definition scopeAccessor (scope : ApiScope) : PluginApi → list loc :=
  match scope with
  | CLIENT => client
  | SERVER => server
  | _ => common
  end.

(** [pluginApi] is [pluginApiMap[sig.pluginId]], which is [undefined] for
    a missing key; indexing [undefined] throws.  For a key that is not the
    map's own and names a property inherited from [Object.prototype],
    [pluginApi] is that property, whose [client], [server] and [common]
    are [undefined], and [findIndex] on it throws as well: [None] stands
    for both. *)
Definition apiItemExists (name : string) (scope : ApiScope)
    (pluginApi : option PluginApi) : R bool :=
  match pluginApi with
  | Some api => has_label name (scopeAccessor scope api)
  | None => throw
  end.

Section removeBrokenLinks.

Variable scope_value : ApiScope → string.

(** The callback of [api.signature.map]. *)
Definition check_part (pluginApiMap : gmap string PluginApi)
    (sig : SignaturePart) : R SignaturePart :=
  match sig with
  | Text _ => mret sig
  | Link r =>
      found ← apiItemExists (text r) (scope r) (pluginApiMap !! pluginId r);
      if (found : bool) then mret sig
      else
        _ ← add_missing (pluginId r) (scope_value (scope r) +:+ "." +:+ text r);
        mret (Text (text r))
  end.

Definition check_declaration (pluginApiMap : gmap string PluginApi)
    (api : loc) : R unit :=
  dec ← read_decl api;
  match dec_signature dec with
  | Some sig =>
      sig' ← map_array sig (check_part pluginApiMap);
      write_signature api sig'
  | None => mret tt
  end.

Definition removeBrokenLinks (pluginApi : PluginApi)
    (pluginApiMap : gmap string PluginApi) : R unit :=
  forEach_array [client; common; server] (λ scope_,
    forEach_array (scope_ pluginApi) (check_declaration pluginApiMap)).

End removeBrokenLinks.

(** *** Reading the result *)

(** Whether a declaration with this label is among the given ones. *)
Definition labelled (h : gmap positive Declaration) (name : string)
    (decs : list loc) : Prop :=
  ∃ l d, l ∈ decs ∧ h !! l = Some d ∧ dec_label d = name.

(** A reference resolves: its plugin is in the map and has a declaration
    of that label in the array of that scope. *)
Definition resolves (h : gmap positive Declaration)
    (pluginApiMap : gmap string PluginApi) (r : Reference) : Prop :=
  ∃ api, pluginApiMap !! pluginId r = Some api ∧
         labelled h (text r) (scopeAccessor (scope r) api).

Definition listed (pluginApi : PluginApi) : list loc :=
  client pluginApi ++ common pluginApi ++ server pluginApi.

Definition links (sig : list SignaturePart) : list Reference :=
  omap (λ p, match p with Link r => Some r | Text _ => None end) sig.

(** The references of the signatures of the listed declarations. *)
Definition links_of (h : gmap positive Declaration) (ls : list loc) : list Reference :=
  ls ≫= (λ l : loc,
    match h !! l with
    | Some d => links (default [] (dec_signature d))
    | None => []
    end).

(** Every declaration reference of a plugin API is in the store. *)
Definition closed (h : gmap positive Declaration) (api : PluginApi) : Prop :=
  ∀ l, l ∈ client api ++ common api ++ server api → is_Some (h !! l).

(** Every declaration reference of every plugin API of the map is in the
    store. *)
Definition map_closed (h : gmap positive Declaration)
    (pluginApiMap : gmap string PluginApi) : Prop :=
  ∀ k api, pluginApiMap !! k = Some api → closed h api.

(** What the callback makes of one element of a signature. *)
Inductive part_fixed (h : gmap positive Declaration)
    (pluginApiMap : gmap string PluginApi) : SignaturePart → SignaturePart → Prop :=
  | text_kept s : part_fixed h pluginApiMap (Text s) (Text s)
  | link_kept r :
      resolves h pluginApiMap r → part_fixed h pluginApiMap (Link r) (Link r)
  | link_replaced r :
      ¬ resolves h pluginApiMap r →
      part_fixed h pluginApiMap (Link r) (Text (text r)).

Definition signature_fixed (h : gmap positive Declaration)
    (pluginApiMap : gmap string PluginApi)
    (sig sig' : option (list SignaturePart)) : Prop :=
  match sig, sig' with
  | Some s, Some s' => Forall2 (part_fixed h pluginApiMap) s s'
  | None, None => True
  | _, _ => False
  end.

(** The entries of [missingApiItems] are only added to, at the end. *)
Definition only_appended (m m' : gmap string (list string)) : Prop :=
  ∀ k xs, m !! k = Some xs → ∃ ys, m' !! k = Some (xs ++ ys).

(** [missingApiItems[key]] is an own entry or undefined: the push of
    [add_missing] goes through. *)
Definition pushable (m : gmap string (list string)) (key : string) : Prop :=
  is_Some (m !! key) ∨ key ∉ object_prototype_keys.

(** Entries are only appended to, and a new key is not the name of an
    inherited property. *)
Definition grown (m m' : gmap string (list string)) : Prop :=
  only_appended m m' ∧
  ∀ k, m !! k = None → is_Some (m' !! k) → k ∉ object_prototype_keys.

(** The callback returns for this reference: its plugin is in the map,
    and if it does not resolve it can be reported. *)
Definition processable (h : gmap positive Declaration)
    (pluginApiMap : gmap string PluginApi) (m : gmap string (list string))
    (r : Reference) : Prop :=
  is_Some (pluginApiMap !! pluginId r) ∧
  (¬ resolves h pluginApiMap r → pushable m (pluginId r)).

(** The entry that reports a broken reference, and its presence in
    [missingApiItems] under the plugin id of the reference. *)
Definition missing_item (scope_value : ApiScope → string) (r : Reference) : string :=
  scope_value (scope r) +:+ "." +:+ text r.

Definition reported (scope_value : ApiScope → string)
    (m : gmap string (list string)) (r : Reference) : Prop :=
  ∃ items, m !! pluginId r = Some items ∧ missing_item scope_value r ∈ items.

(** *** Sample data *)

Definition sample_scope_value (s : ApiScope) : string :=
  match s with
  | CLIENT => "public"
  | SERVER => "server"
  | COMMON => "common"
  end.

Definition to_bar : Reference :=
  {| pluginId := "data"; scope := CLIENT; text := "Bar" |}.

Definition to_gone : Reference :=
  {| pluginId := "data"; scope := SERVER; text := "Gone" |}.

Definition to_nowhere : Reference :=
  {| pluginId := "absent"; scope := CLIENT; text := "Bar" |}.

Definition sample_decls : gmap positive Declaration :=
  <[2%positive := {| dec_label := "Bar"; dec_signature := None |}]>
    {[1%positive :=
        {| dec_label := "Foo";
           dec_signature := Some [Text "(x: "; Link to_bar; Text ") => "; Link to_gone] |}]}.

Definition sample_api : PluginApi :=
  {| id := "data"; client := [1; 2]%positive; server := []; common := [] |}.

Definition sample_map : gmap string PluginApi := {["data" := sample_api]}.

Definition to_constructor : Reference :=
  {| pluginId := "constructor"; scope := CLIENT; text := "Gone" |}.

(** A plugin whose id is the name of an inherited property, with a
    reference to it that does not resolve. *)
Definition constructor_decls : gmap positive Declaration :=
  {[1%positive := {| dec_label := "Foo"; dec_signature := Some [Link to_constructor] |}]}.

Definition constructor_api : PluginApi :=
  {| id := "constructor"; client := [1%positive]; server := []; common := [] |}.

Definition constructor_map : gmap string PluginApi :=
  {["constructor" := constructor_api]}.

Definition sample_state : state :=
  {| decls := sample_decls; missingApiItems := ∅ |}.

(** The same store after the call: the broken reference is text, and
    reported. *)
Definition sample_state_after : state :=
  {| decls :=
       <[1%positive :=
           {| dec_label := "Foo";
              dec_signature := Some [Text "(x: "; Link to_bar; Text ") => "; Text "Gone"] |}]>
         sample_decls;
     missingApiItems := {["data" := ["server.Gone"]]} |}.

End BrokenLinks.

(** * Properties *)

(** ** The store monad *)

Lemma bind_Some {A B} (m : M A) (k : A → M B) h a h' :
  m h = Some (a, h') → (m ≫= k) h = k a h'.
Proof. intros E. unfold mbind, M_bind. by rewrite E. Qed.

Lemma read_scope_Some h s o :
  h !! s = Some (Scope o) → read_scope s h = Some (o, h).
Proof. intros E. unfold read_scope. by rewrite E. Qed.

Lemma read_array_Some h a xs :
  h !! a = Some (Arr xs) → read_array a h = Some (xs, h).
Proof. intros E. unfold read_array. by rewrite E. Qed.

Lemma push_Some h a xs x :
  h !! a = Some (Arr xs) → push a x h = Some (tt, <[a := Arr (xs ++ [x])]> h).
Proof.
  intros E. unfold push.
  by rewrite (bind_Some _ _ _ _ _ (read_array_Some _ _ _ E)).
Qed.

Lemma alloc_Some o h :
  alloc o h = Some (fresh (dom h), <[fresh (dom h) := o]> h).
Proof. reflexivity. Qed.

(** Run the first computation of a bind, given the equation for it. *)
Ltac run_with E := rewrite (bind_Some _ _ _ _ _ E).
Ltac run_read_scope E := run_with (read_scope_Some _ _ _ E).
Ltac run_read_array E := run_with (read_array_Some _ _ _ E).

(** ** One declaration *)

Lemma place_setup d : place d = SetupSlot ↔ lifecycle d = Some SETUP.
Proof. unfold place. destruct (lifecycle d) as [[]|]; split; congruence. Qed.

Lemma place_start d : place d = StartSlot ↔ lifecycle d = Some START.
Proof. unfold place. destruct (lifecycle d) as [[]|]; split; congruence. Qed.

Lemma place_bucket d b :
  place d = InBucket b ↔ lifecycle d = None ∧ bucket_of_type (type d) = b.
Proof.
  unfold place. destruct (lifecycle d) as [[]|]; split;
    try congruence; try (intros [? ?]; congruence).
  intros [= <-]. done.
Qed.

(** What one call does to the store, by the place the declaration is meant
    for. *)
Lemma addApiDeclarationToScope_run d s o h :
  h !! s = Some (Scope o) →
  match place d with
  | SetupSlot =>
      addApiDeclarationToScope d s h = Some (tt, <[s := Scope (with_setup d o)]> h)
  | StartSlot =>
      addApiDeclarationToScope d s h = Some (tt, <[s := Scope (with_start d o)]> h)
  | InBucket b =>
      ∀ xs, h !! field b o = Some (Arr xs) →
        addApiDeclarationToScope d s h = Some (tt, <[field b o := Arr (xs ++ [d])]> h)
  end.
Proof.
  intros Hs. pose proof (read_scope_Some _ _ _ Hs) as Hr.
  unfold place, addApiDeclarationToScope.
  destruct (lifecycle d) as [[]|]; simpl.
  - unfold assign_start. by run_with Hr.
  - unfold assign_setup. by run_with Hr.
  - destruct (type d) as [[]|]; simpl; intros xs Hxs; unfold push_field;
      run_with Hr; by apply push_Some.
Qed.

Lemma bucket_append_to_eq b d c : bucket b (append_to b d c) = bucket b c ++ [d].
Proof. by destruct b. Qed.

Lemma bucket_append_to_ne b b' d c :
  b ≠ b' → bucket b' (append_to b d c) = bucket b' c.
Proof. by destruct b, b'. Qed.

Lemma represents_scope_ne_field h s o c b : represents h s o c → s ≠ field b o.
Proof. intros (Hs & _ & _ & Hb) E. specialize (Hb b). rewrite <- E in Hb. congruence. Qed.

(** One call, on the contents of a scope whose arrays are not shared. *)
Lemma addApiDeclarationToScope_represents d h s o c :
  represents h s o c → separated o →
  ∃ h' o',
    addApiDeclarationToScope d s h = Some (tt, h') ∧
    represents h' s o' (put d c) ∧
    (∀ b, field b o' = field b o) ∧
    dom h' = dom h ∧
    (∀ l, l ≠ s → (∀ b, l ≠ field b o) → h' !! l = h !! l).
Proof.
  intros Hrep Hsep.
  pose proof (λ b, represents_scope_ne_field _ _ _ _ b Hrep) as Hne.
  destruct Hrep as (Hs & Hsetup & Hstart & Hb).
  pose proof (addApiDeclarationToScope_run d s o h Hs) as Hrun.
  unfold put. destruct (place d) as [| |b].
  - eexists _, _. split; [exact Hrun|]. split_and!.
    + split_and!; [apply lookup_insert_eq|done|done|].
      intros b. rewrite lookup_insert_ne by apply Hne.
      replace (field b (with_setup d o)) with (field b o) by (by destruct b).
      apply Hb.
    + by intros [].
    + apply dom_insert_lookup_L. eauto.
    + intros l Hl _. by rewrite lookup_insert_ne.
  - eexists _, _. split; [exact Hrun|]. split_and!.
    + split_and!; [apply lookup_insert_eq|done|done|].
      intros b. rewrite lookup_insert_ne by apply Hne.
      replace (field b (with_start d o)) with (field b o) by (by destruct b).
      apply Hb.
    + by intros [].
    + apply dom_insert_lookup_L. eauto.
    + intros l Hl _. by rewrite lookup_insert_ne.
  - exists (<[field b o := Arr (bucket b c ++ [d])]> h), o.
    split; [apply Hrun, Hb|]. split_and!.
    + split_and!; [|done|done|].
      * rewrite lookup_insert_ne; [done|]. intros E. by apply (Hne b).
      * intros b'. destruct (decide (b = b')) as [<-|Hbb].
        -- by rewrite lookup_insert_eq, bucket_append_to_eq.
        -- rewrite lookup_insert_ne by (intros E; by apply Hbb, Hsep).
           by rewrite bucket_append_to_ne.
    + done.
    + apply dom_insert_lookup_L. eauto.
    + intros l _ Hl. rewrite lookup_insert_ne; [done|]. intros E. by apply (Hl b).
Qed.

(** ** The partition by place *)

Lemma meant_for_snoc p xs d :
  meant_for p (xs ++ [d]) =
  if decide (place d = p) then meant_for p xs ++ [d] else meant_for p xs.
Proof.
  unfold meant_for. rewrite filter_app, filter_cons, filter_nil.
  destruct (decide (place d = p)); [done|]. by rewrite app_nil_r.
Qed.

Lemma classified_snoc xs d : classified (xs ++ [d]) = put d (classified xs).
Proof.
  unfold classified, put, append_to. rewrite !meant_for_snoc.
  destruct (place d) as [| |[]] eqn:E; simpl;
    repeat case_decide; try congruence; by rewrite ?last_snoc.
Qed.

Lemma bucket_classified b ds : bucket b (classified ds) = meant_for (InBucket b) ds.
Proof. by destruct b. Qed.

Lemma elem_of_meant_for p ds d : d ∈ meant_for p ds ↔ place d = p ∧ d ∈ ds.
Proof. unfold meant_for. by rewrite list_elem_of_filter. Qed.

(** Every declaration is meant for exactly one place, so the eight parts
    add up to the whole. *)
Lemma length_meant_for ds :
  length ds =
  length (meant_for SetupSlot ds) + length (meant_for StartSlot ds) +
  length (meant_for (InBucket Classes) ds) +
  length (meant_for (InBucket Interfaces) ds) +
  length (meant_for (InBucket Enums) ds) +
  length (meant_for (InBucket Functions) ds) +
  length (meant_for (InBucket Objects) ds) +
  length (meant_for (InBucket Misc) ds).
Proof.
  induction ds as [|d ds IH]; [done|].
  unfold meant_for in *. rewrite !filter_cons.
  destruct (place d) as [| |[]]; repeat case_decide; try congruence;
    simpl; lia.
Qed.

(** ** The loop of groupPluginApi *)

Lemma forEach_from_addApiDeclarationToScope arr ds s n :
  ∀ k h o,
    h !! arr = Some (Arr ds) →
    represents h s o (classified (take k ds)) →
    separated o →
    (∀ b, arr ≠ field b o) →
    k + n = length ds →
    ∃ h' o',
      forEach_from arr (λ d, addApiDeclarationToScope d s) k n h = Some (tt, h') ∧
      represents h' s o' (classified ds) ∧
      (∀ b, field b o' = field b o) ∧
      dom h' = dom h ∧
      (∀ l, l ≠ s → (∀ b, l ≠ field b o) → h' !! l = h !! l).
Proof.
  induction n as [|n IH]; intros k h o Harr Hrep Hsep Hfresh Hlen.
  - exists h, o. rewrite take_ge in Hrep by lia. by split_and!.
  - assert (is_Some (ds !! k)) as [d Hd] by (apply lookup_lt_is_Some; lia).
    assert (arr ≠ s) as Hs.
    { intros ->. destruct Hrep as (Hs & _). congruence. }
    destruct (addApiDeclarationToScope_represents d h s o _ Hrep Hsep)
      as (h1 & o1 & Hrun & Hrep1 & Hf1 & Hdom1 & Hframe1).
    rewrite <- classified_snoc, <- (take_S_r _ _ _ Hd) in Hrep1.
    destruct (IH (S k) h1 o1) as (h' & o' & Hrun' & Hrep' & Hf' & Hdom' & Hframe').
    + rewrite Hframe1; done.
    + done.
    + intros b b'. rewrite !Hf1. apply Hsep.
    + intros b. rewrite Hf1. apply Hfresh.
    + lia.
    + exists h', o'. split_and!.
      * simpl. run_read_array Harr.
        rewrite Hd. by run_with Hrun.
      * done.
      * intros b. by rewrite Hf', Hf1.
      * congruence.
      * intros l Hl Hlb. rewrite Hframe'; [by apply Hframe1|done|].
        intros b. rewrite Hf1. apply Hlb.
Qed.

(** ** createEmptyScope *)

Lemma createEmptyScope_represents h :
  ∃ s o h',
    createEmptyScope h = Some (s, h') ∧
    represents h' s o empty_contents ∧
    separated o ∧
    (s ∉ dom h) ∧
    (∀ b, field b o ∉ dom h) ∧
    (∀ l, l ∈ dom h → h' !! l = h !! l) ∧
    (∀ l, l ∈ dom h' → l ∈ dom h ∨ l = s ∨ ∃ b, l = field b o).
Proof.
  unfold createEmptyScope.
  do 6 (rewrite (bind_Some _ _ _ _ _ (alloc_Some _ _))).
  rewrite alloc_Some.
  set (l1 := fresh (dom h)). set (h1 := <[l1 := Arr []]> h).
  set (l2 := fresh (dom h1)). set (h2 := <[l2 := Arr []]> h1).
  set (l3 := fresh (dom h2)). set (h3 := <[l3 := Arr []]> h2).
  set (l4 := fresh (dom h3)). set (h4 := <[l4 := Arr []]> h3).
  set (l5 := fresh (dom h4)). set (h5 := <[l5 := Arr []]> h4).
  set (l6 := fresh (dom h5)). set (h6 := <[l6 := Arr []]> h5).
  set (l7 := fresh (dom h6)).
  assert (h !! l1 = None) as F1 by (apply not_elem_of_dom, is_fresh).
  assert (h1 !! l2 = None) as F2 by (apply not_elem_of_dom, is_fresh).
  assert (h2 !! l3 = None) as F3 by (apply not_elem_of_dom, is_fresh).
  assert (h3 !! l4 = None) as F4 by (apply not_elem_of_dom, is_fresh).
  assert (h4 !! l5 = None) as F5 by (apply not_elem_of_dom, is_fresh).
  assert (h5 !! l6 = None) as F6 by (apply not_elem_of_dom, is_fresh).
  assert (h6 !! l7 = None) as F7 by (apply not_elem_of_dom, is_fresh).
  clearbody l1 l2 l3 l4 l5 l6 l7. subst h1 h2 h3 h4 h5 h6.
  repeat match goal with
  | H : <[_ := _]> _ !! _ = None |- _ => apply lookup_insert_None in H as [H ?]
  end.
  eexists _, _, _. split; [reflexivity|]. split_and!.
  - split_and!; [apply lookup_insert_eq|done|done|].
    intros b. destruct b; simpl; by simplify_map_eq.
  - intros b b' E. destruct b, b'; simpl in E; congruence.
  - by apply not_elem_of_dom.
  - intros b. destruct b; simpl; by apply not_elem_of_dom.
  - intros l [x Hx]%elem_of_dom.
    rewrite !lookup_insert_ne; [done|intros ->; congruence..].
  - intros l Hl. rewrite !dom_insert_L, !elem_of_union, !elem_of_singleton in Hl.
    destruct Hl as [->|[->|[->|[->|[->|[->|[->|?]]]]]]]; auto.
    + right; right. by exists Objects.
    + right; right. by exists Misc.
    + right; right. by exists Enums.
    + right; right. by exists Interfaces.
    + right; right. by exists Functions.
    + right; right. by exists Classes.
Qed.

(** ** groupPluginApi *)

Lemma groupPluginApi_represents h arr ds :
  h !! arr = Some (Arr ds) →
  ∃ s o h',
    groupPluginApi arr h = Some (s, h') ∧
    represents h' s o (classified ds) ∧
    separated o ∧
    (s ∉ dom h) ∧
    (∀ b, field b o ∉ dom h) ∧
    (∀ l, l ∈ dom h → h' !! l = h !! l) ∧
    (∀ l, l ∈ dom h' → l ∈ dom h ∨ l = s ∨ ∃ b, l = field b o).
Proof.
  intros Harr.
  assert (arr ∈ dom h) as Hin by (apply elem_of_dom; eauto).
  destruct (createEmptyScope_represents h)
    as (s & o & h0 & Hrun0 & Hrep0 & Hsep & Hs & Hf & Hframe0 & Hdom0).
  assert (h0 !! arr = Some (Arr ds)) as Harr0 by (by rewrite Hframe0).
  destruct (forEach_from_addApiDeclarationToScope arr ds s (length ds) 0 h0 o)
    as (h' & o' & Hrun & Hrep & Hfields & Hdom & Hframe); try done.
  { intros b ->. by apply (Hf b). }
  exists s, o', h'. split_and!.
  - assert (forEach arr (λ d, addApiDeclarationToScope d s) h0 = Some (tt, h'))
      as Hloop.
    { unfold forEach.
      by run_read_array Harr0. }
    unfold groupPluginApi. run_with Hrun0.
    by run_with Hloop.
  - done.
  - intros b b'. rewrite !Hfields. apply Hsep.
  - done.
  - intros b. rewrite Hfields. apply Hf.
  - intros l Hl. rewrite Hframe; [by apply Hframe0| |].
    + intros ->. done.
    + intros b ->. by apply (Hf b).
  - intros l Hl. rewrite Hdom in Hl. destruct (Hdom0 l Hl) as [?|[?|[b ->]]]; auto.
    right; right. exists b. by rewrite Hfields.
Qed.

(** ** Contents and count *)

Lemma represents_contents h s o c : represents h s o c → contents h s = Some c.
Proof.
  intros (Hs & Hsetup & Hstart & Hb). unfold contents, snapshot.
  run_read_scope Hs.
  run_read_array (Hb Classes).
  run_read_array (Hb Functions).
  run_read_array (Hb Interfaces).
  run_read_array (Hb Objects).
  run_read_array (Hb Enums).
  run_read_array (Hb Misc).
  simpl. rewrite Hsetup, Hstart. by destruct c.
Qed.

Lemma contents_represents h s c :
  contents h s = Some c → ∃ o, represents h s o c.
Proof.
  unfold contents, snapshot, mbind, M_bind, read_scope, read_array, mret, M_ret.
  intros H.
  destruct (h !! s) as [[|o]|] eqn:Hs; try done. exists o.
  destruct (h !! classes o) as [[x1|]|] eqn:H1; try done.
  destruct (h !! functions o) as [[x2|]|] eqn:H2; try done.
  destruct (h !! interfaces o) as [[x3|]|] eqn:H3; try done.
  destruct (h !! objects o) as [[x4|]|] eqn:H4; try done.
  destruct (h !! enums o) as [[x5|]|] eqn:H5; try done.
  destruct (h !! misc o) as [[x6|]|] eqn:H6; try done.
  simpl in H. injection H as <-. split_and!; try done.
  by intros [].
Qed.

Lemma countScopeApi_represents h s o c :
  represents h s o c → countScopeApi s h = Some (size_of c, h).
Proof.
  intros (Hs & Hsetup & Hstart & Hb). unfold countScopeApi.
  run_read_scope Hs.
  run_read_array (Hb Classes).
  run_read_array (Hb Interfaces).
  run_read_array (Hb Functions).
  run_read_array (Hb Objects).
  run_read_array (Hb Enums).
  run_read_array (Hb Misc).
  unfold mret, M_ret, size_of. rewrite Hsetup, Hstart. simpl.
  do 2 f_equal. lia.
Qed.

Lemma size_of_classified ds :
  size_of (classified ds) + (length (meant_for SetupSlot ds) - 1) +
    (length (meant_for StartSlot ds) - 1) = length ds.
Proof.
  pose proof (length_meant_for ds) as Hlen. unfold size_of, classified. simpl.
  assert (∀ l : list ApiDeclaration,
    match last l with Some _ => 1 | None => 0 end + (length l - 1) = length l) as Hl.
  { intros [|x l]; [done|]. rewrite last_cons. simpl. destruct (last l); lia. }
  pose proof (Hl (meant_for SetupSlot ds)).
  pose proof (Hl (meant_for StartSlot ds)). lia.
Qed.

Lemma meant_for_setup ds : meant_for SetupSlot ds = tagged SETUP ds.
Proof. apply list_filter_iff. intros d. apply place_setup. Qed.

Lemma meant_for_start ds : meant_for StartSlot ds = tagged START ds.
Proof. apply list_filter_iff. intros d. apply place_start. Qed.

Lemma meant_for_bucket b ds : meant_for (InBucket b) ds = typed_for b ds.
Proof. apply list_filter_iff. intros d. apply place_bucket. Qed.

(** Whatever the partition holds at a place is an input declaration meant
    for that place. *)
Lemma holds_classified ds p d :
  holds (classified ds) p d → p = place d ∧ d ∈ ds.
Proof.
  destruct p as [| |b]; simpl.
  - intros [E Hd]%last_Some_elem_of%elem_of_meant_for. done.
  - intros [E Hd]%last_Some_elem_of%elem_of_meant_for. done.
  - rewrite bucket_classified. intros [E Hd]%elem_of_meant_for. done.
Qed.

Lemma tagged_last lc pre d post :
  lifecycle d = Some lc →
  Forall (λ x, lifecycle x ≠ Some lc) post →
  last (tagged lc (pre ++ d :: post)) = Some d.
Proof.
  intros Hd Hpost. unfold tagged.
  rewrite filter_app, filter_cons_True by done.
  assert (filter (λ x, lifecycle x = Some lc) post = []) as ->.
  { induction Hpost as [|x post Hx _ IH]; [done|]. by rewrite filter_cons_False. }
  apply last_snoc.
Qed.

(** A sublist keeps the relative order of its elements. *)
Lemma sublist_lookup_some {A} (l1 l2 : list A) :
  l1 `sublist_of` l2 →
  ∀ i x, l1 !! i = Some x → ∃ i', l2 !! i' = Some x.
Proof.
  induction 1 as [|z l1 l2 _ IH|z l1 l2 _ IH]; intros i x Hx.
  - done.
  - destruct i as [|i]; simpl in Hx.
    + exists 0. done.
    + destruct (IH i x Hx) as [i' ?]. by exists (S i').
  - destruct (IH i x Hx) as [i' ?]. by exists (S i').
Qed.

Lemma sublist_order {A} (l1 l2 : list A) :
  l1 `sublist_of` l2 →
  ∀ i j x y, i < j → l1 !! i = Some x → l1 !! j = Some y →
    ∃ i' j', i' < j' ∧ l2 !! i' = Some x ∧ l2 !! j' = Some y.
Proof.
  induction 1 as [|z l1 l2 Hsub IH|z l1 l2 _ IH]; intros i j x y Hij Hx Hy.
  - done.
  - destruct j as [|j]; [lia|]. simpl in Hy. destruct i as [|i]; simpl in Hx.
    + destruct (sublist_lookup_some _ _ Hsub j y Hy) as [j' ?].
      exists 0, (S j'). split_and!; [lia|done|done].
    + destruct (IH i j x y) as (i' & j' & ? & ? & ?); [lia|done|done|].
      exists (S i'), (S j'). split_and!; [lia|done|done].
  - destruct (IH i j x y) as (i' & j' & ? & ? & ?); [done..|].
    exists (S i'), (S j'). split_and!; [lia|done|done].
Qed.

(** The result of [groupPluginApi], read off the final store. *)
Lemma groupPluginApi_contents h arr ds :
  h !! arr = Some (Arr ds) →
  ∃ s h',
    groupPluginApi arr h = Some (s, h') ∧
    contents h' s = Some (classified ds) ∧
    countScopeApi s h' = Some (size_of (classified ds), h').
Proof.
  intros Harr.
  destruct (groupPluginApi_represents h arr ds Harr) as (s & o & h' & Hrun & Hrep & _).
  exists s, h'. split_and!; [done|by eapply represents_contents|].
  by eapply countScopeApi_represents.
Qed.

(** * The claims *)

(** C1, as stated, fails: for an input of two declarations that are both
    tagged Setup, [countScopeApi] of the result of [groupPluginApi] is 1,
    not the length 2 of the input. *)
Lemma countScopeApi_groupPluginApi_overwritten :
  ∃ s h',
    groupPluginApi 1%positive (store_with two_setups) = Some (s, h') ∧
    countScopeApi s h' = Some (1, h') ∧
    1 ≠ length two_setups.
Proof.
  eexists _, _. split_and!.
  - vm_compute. reflexivity.
  - vm_compute. reflexivity.
  - simpl. lia.
Qed.

(** C1 (amended): for every input sequence, [groupPluginApi] followed by
    [countScopeApi] returns the length of the input minus the number of
    overwritten declarations (all those tagged Setup but one, all those
    tagged Start but one); the count equals the length of the input exactly
    when at most one declaration is tagged Setup and at most one is tagged
    Start. *)
Theorem countScopeApi_groupPluginApi (h : heap) (arr : loc) (ds : list ApiDeclaration) :
  h !! arr = Some (Arr ds) →
  ∃ s h' n,
    groupPluginApi arr h = Some (s, h') ∧
    countScopeApi s h' = Some (n, h') ∧
    n + (length (tagged SETUP ds) - 1) + (length (tagged START ds) - 1) = length ds ∧
    (n = length ds ↔ length (tagged SETUP ds) ≤ 1 ∧ length (tagged START ds) ≤ 1).
Proof.
  intros Harr.
  destruct (groupPluginApi_contents h arr ds Harr) as (s & h' & Hrun & _ & Hcount).
  exists s, h', (size_of (classified ds)). split_and!; [done|done| |].
  - rewrite <- meant_for_setup, <- meant_for_start. apply size_of_classified.
  - pose proof (size_of_classified ds) as Hsize.
    rewrite meant_for_setup, meant_for_start in Hsize. lia.
Qed.

Lemma countScopeApi_groupPluginApi_witness :
  store_with mixed !! 1%positive = Some (Arr mixed) ∧
  ∃ s h' n,
    groupPluginApi 1%positive (store_with mixed) = Some (s, h') ∧
    countScopeApi s h' = Some (n, h') ∧
    n + (length (tagged SETUP mixed) - 1) + (length (tagged START mixed) - 1)
      = length mixed ∧
    (n = length mixed ↔
       length (tagged SETUP mixed) ≤ 1 ∧ length (tagged START mixed) ≤ 1).
Proof.
  split; [reflexivity|].
  apply (countScopeApi_groupPluginApi (store_with mixed) 1%positive mixed).
  reflexivity.
Defined.

(** C2, as stated, fails: of two declarations both tagged Setup, the first
    one is in no place of the result, neither in a slot nor in a
    sequence. *)
Lemma groupPluginApi_overwritten_nowhere :
  ∃ s h' c,
    groupPluginApi 1%positive (store_with two_setups) = Some (s, h') ∧
    contents h' s = Some c ∧
    decl "first" (Some ClassKind) (Some SETUP) ∈ two_setups ∧
    ∀ p, ¬ holds c p (decl "first" (Some ClassKind) (Some SETUP)).
Proof.
  eexists _, _, _. split_and!.
  - vm_compute. reflexivity.
  - vm_compute. reflexivity.
  - apply list_elem_of_here.
  - intros [| |b]; simpl.
    + discriminate.
    + discriminate.
    + destruct b; simpl; apply not_elem_of_nil.
Qed.

(** C2 (amended): every declaration of the input is in at most one place of
    the result of [groupPluginApi], the one its lifecycle tag or else its
    type tag selects; it is in that place when it has no lifecycle tag, or
    is the last declaration of the input tagged Setup, or the last one
    tagged Start, and in no place otherwise.  An input without repetition
    gives sequences without repetition. *)
Theorem groupPluginApi_at_most_one_place (h : heap) (arr : loc)
    (ds : list ApiDeclaration) :
  h !! arr = Some (Arr ds) →
  ∃ s h' c,
    groupPluginApi arr h = Some (s, h') ∧
    contents h' s = Some c ∧
    (∀ d, d ∈ ds →
       (∀ p, holds c p d → p = place d) ∧
       (holds c (place d) d ↔
          lifecycle d = None ∨
          last (tagged SETUP ds) = Some d ∨
          last (tagged START ds) = Some d)) ∧
    (NoDup ds → ∀ b, NoDup (bucket b c)).
Proof.
  intros Harr.
  destruct (groupPluginApi_contents h arr ds Harr) as (s & h' & Hrun & Hc & _).
  exists s, h', (classified ds). split_and!; [done|done| |].
  - intros d Hd. split.
    + intros p Hp. by destruct (holds_classified ds p d Hp).
    + rewrite <- meant_for_setup, <- meant_for_start. split.
      * destruct (place d) as [| |b] eqn:E; simpl; auto.
        apply place_bucket in E as [E _]. auto.
      * intros [Hnone|[Hlast|Hlast]].
        -- unfold place. rewrite Hnone. simpl. rewrite bucket_classified.
           apply elem_of_meant_for. split; [|done].
           unfold place. by rewrite Hnone.
        -- pose proof (last_Some_elem_of _ _ Hlast) as [E _]%elem_of_meant_for.
           by rewrite E.
        -- pose proof (last_Some_elem_of _ _ Hlast) as [E _]%elem_of_meant_for.
           by rewrite E.
  - intros Hnd b. rewrite bucket_classified. by apply NoDup_filter.
Qed.

Lemma groupPluginApi_at_most_one_place_witness :
  store_with two_setups !! 1%positive = Some (Arr two_setups) ∧
  ∃ s h' c,
    groupPluginApi 1%positive (store_with two_setups) = Some (s, h') ∧
    contents h' s = Some c ∧
    (∀ d, d ∈ two_setups →
       (∀ p, holds c p d → p = place d) ∧
       (holds c (place d) d ↔
          lifecycle d = None ∨
          last (tagged SETUP two_setups) = Some d ∨
          last (tagged START two_setups) = Some d)) ∧
    (NoDup two_setups → ∀ b, NoDup (bucket b c)).
Proof.
  split; [reflexivity|].
  apply (groupPluginApi_at_most_one_place (store_with two_setups) 1%positive two_setups).
  reflexivity.
Defined.

(** C3: a declaration whose lifecycle tag is Setup or Start is in none of
    the six sequences of the result of [groupPluginApi], whatever its type
    tag. *)
Theorem groupPluginApi_lifecycle_priority (h : heap) (arr : loc)
    (ds : list ApiDeclaration) :
  h !! arr = Some (Arr ds) →
  ∃ s h' c,
    groupPluginApi arr h = Some (s, h') ∧
    contents h' s = Some c ∧
    ∀ d, lifecycle d = Some SETUP ∨ lifecycle d = Some START →
      (d ∉ c_classes c) ∧ (d ∉ c_interfaces c) ∧ (d ∉ c_enums c) ∧
      (d ∉ c_functions c) ∧ (d ∉ c_objects c) ∧ (d ∉ c_misc c).
Proof.
  intros Harr.
  destruct (groupPluginApi_contents h arr ds Harr) as (s & h' & Hrun & Hc & _).
  exists s, h', (classified ds). split_and!; [done|done|].
  intros d Hd.
  assert (∀ b, d ∉ bucket b (classified ds)) as Hb.
  { intros b. rewrite bucket_classified.
    intros [[E _]%place_bucket _]%elem_of_meant_for.
    destruct Hd; congruence. }
  split_and!.
  - apply (Hb Classes).
  - apply (Hb Interfaces).
  - apply (Hb Enums).
  - apply (Hb Functions).
  - apply (Hb Objects).
  - apply (Hb Misc).
Qed.

Lemma groupPluginApi_lifecycle_priority_witness :
  store_with mixed !! 1%positive = Some (Arr mixed) ∧
  ∃ s h' c,
    groupPluginApi 1%positive (store_with mixed) = Some (s, h') ∧
    contents h' s = Some c ∧
    ∀ d, lifecycle d = Some SETUP ∨ lifecycle d = Some START →
      (d ∉ c_classes c) ∧ (d ∉ c_interfaces c) ∧ (d ∉ c_enums c) ∧
      (d ∉ c_functions c) ∧ (d ∉ c_objects c) ∧ (d ∉ c_misc c).
Proof.
  split; [reflexivity|].
  apply (groupPluginApi_lifecycle_priority (store_with mixed) 1%positive mixed).
  reflexivity.
Defined.

(** C4: [groupPluginApi] succeeds on every input; the setup slot of its
    result holds the last declaration of the input tagged Setup, the
    earlier ones being overwritten and in none of the six sequences; the
    same holds for the start slot and the tag Start. *)
Theorem groupPluginApi_last_lifecycle_wins (h : heap) (arr : loc)
    (ds : list ApiDeclaration) :
  h !! arr = Some (Arr ds) →
  ∃ s h' c,
    groupPluginApi arr h = Some (s, h') ∧
    contents h' s = Some c ∧
    (∀ pre d post,
       ds = pre ++ d :: post →
       lifecycle d = Some SETUP →
       Forall (λ x, lifecycle x ≠ Some SETUP) post →
       c_setup c = Some d ∧
       ∀ x, x ∈ pre → lifecycle x = Some SETUP → ∀ b, x ∉ bucket b c) ∧
    (∀ pre d post,
       ds = pre ++ d :: post →
       lifecycle d = Some START →
       Forall (λ x, lifecycle x ≠ Some START) post →
       c_start c = Some d ∧
       ∀ x, x ∈ pre → lifecycle x = Some START → ∀ b, x ∉ bucket b c).
Proof.
  intros Harr.
  destruct (groupPluginApi_contents h arr ds Harr) as (s & h' & Hrun & Hc & _).
  exists s, h', (classified ds). split_and!; [done|done| |].
  - intros pre d post -> Hd Hpost. split.
    + simpl. rewrite meant_for_setup. by apply tagged_last.
    + intros x _ Hx b. rewrite bucket_classified.
      intros [[E _]%place_bucket _]%elem_of_meant_for. congruence.
  - intros pre d post -> Hd Hpost. split.
    + simpl. rewrite meant_for_start. by apply tagged_last.
    + intros x _ Hx b. rewrite bucket_classified.
      intros [[E _]%place_bucket _]%elem_of_meant_for. congruence.
Qed.

Lemma groupPluginApi_last_lifecycle_wins_witness :
  store_with two_setups !! 1%positive = Some (Arr two_setups) ∧
  ∃ s h' c,
    groupPluginApi 1%positive (store_with two_setups) = Some (s, h') ∧
    contents h' s = Some c ∧
    (∀ pre d post,
       two_setups = pre ++ d :: post →
       lifecycle d = Some SETUP →
       Forall (λ x, lifecycle x ≠ Some SETUP) post →
       c_setup c = Some d ∧
       ∀ x, x ∈ pre → lifecycle x = Some SETUP → ∀ b, x ∉ bucket b c) ∧
    (∀ pre d post,
       two_setups = pre ++ d :: post →
       lifecycle d = Some START →
       Forall (λ x, lifecycle x ≠ Some START) post →
       c_start c = Some d ∧
       ∀ x, x ∈ pre → lifecycle x = Some START → ∀ b, x ∉ bucket b c).
Proof.
  split; [reflexivity|].
  apply (groupPluginApi_last_lifecycle_wins (store_with two_setups) 1%positive two_setups).
  reflexivity.
Defined.

(** C5: each of the six sequences of the result of [groupPluginApi] is the
    input restricted to the declarations without lifecycle tag whose type
    tag selects that sequence, in input order: two declarations of one
    sequence stand in the input in the same relative order. *)
Theorem groupPluginApi_stable (h : heap) (arr : loc) (ds : list ApiDeclaration) :
  h !! arr = Some (Arr ds) →
  ∃ s h' c,
    groupPluginApi arr h = Some (s, h') ∧
    contents h' s = Some c ∧
    ∀ b,
      bucket b c = typed_for b ds ∧
      ∀ i j x y, i < j →
        bucket b c !! i = Some x → bucket b c !! j = Some y →
        ∃ i' j', i' < j' ∧ ds !! i' = Some x ∧ ds !! j' = Some y.
Proof.
  intros Harr.
  destruct (groupPluginApi_contents h arr ds Harr) as (s & h' & Hrun & Hc & _).
  exists s, h', (classified ds). split_and!; [done|done|].
  intros b. rewrite bucket_classified. split; [apply meant_for_bucket|].
  apply sublist_order. unfold meant_for. apply sublist_filter.
Qed.

Lemma groupPluginApi_stable_witness :
  store_with mixed !! 1%positive = Some (Arr mixed) ∧
  ∃ s h' c,
    groupPluginApi 1%positive (store_with mixed) = Some (s, h') ∧
    contents h' s = Some c ∧
    ∀ b,
      bucket b c = typed_for b mixed ∧
      ∀ i j x y, i < j →
        bucket b c !! i = Some x → bucket b c !! j = Some y →
        ∃ i' j', i' < j' ∧ mixed !! i' = Some x ∧ mixed !! j' = Some y.
Proof.
  split; [reflexivity|].
  apply (groupPluginApi_stable (store_with mixed) 1%positive mixed).
  reflexivity.
Defined.



(** C7: for every scope object of a store, [countScopeApi] returns 1 for a
    present setup slot, plus 1 for a present start slot, plus the lengths
    of the six sequences classes, interfaces, enums, functions, objects and
    misc; it succeeds and leaves the store as it was. *)
Theorem countScopeApi_total (h : heap) (api : loc) (c : ScopeContents) :
  contents h api = Some c →
  countScopeApi api h =
    Some ((match c_setup c with Some _ => 1 | None => 0 end) +
          (match c_start c with Some _ => 1 | None => 0 end) +
          (length (c_classes c) + length (c_interfaces c) + length (c_enums c) +
           length (c_functions c) + length (c_objects c) + length (c_misc c)),
          h).
Proof.
  intros [o Hrep]%contents_represents.
  rewrite (countScopeApi_represents _ _ _ _ Hrep).
  unfold size_of. do 2 f_equal. lia.
Qed.

Lemma countScopeApi_total_witness :
  contents filled_store 7%positive = Some filled_contents ∧
  countScopeApi 7%positive filled_store =
    Some (1 + 0 + (2 + 0 + 0 + 1 + 0 + 1), filled_store).
Proof.
  split; [reflexivity|].
  apply (countScopeApi_total filled_store 7%positive filled_contents).
  reflexivity.
Defined.

(** C8: [createEmptyScope] succeeds in every store and returns a new scope
    object whose six sequences are empty and whose setup and start slots
    are unset; [groupPluginApi] of an empty input returns such a scope. *)
Theorem createEmptyScope_empty :
  (∀ h : heap, ∃ s h',
     createEmptyScope h = Some (s, h') ∧
     contents h' s =
       Some {| c_setup := None; c_start := None;
               c_classes := []; c_functions := []; c_interfaces := [];
               c_objects := []; c_enums := []; c_misc := [] |} ∧
     (s ∉ dom h) ∧
     (∀ l, l ∈ dom h → h' !! l = h !! l)) ∧
  (∀ (h : heap) (arr : loc),
     h !! arr = Some (Arr []) →
     ∃ s h',
       groupPluginApi arr h = Some (s, h') ∧
       contents h' s =
         Some {| c_setup := None; c_start := None;
                 c_classes := []; c_functions := []; c_interfaces := [];
                 c_objects := []; c_enums := []; c_misc := [] |}).
Proof.
  split.
  - intros h.
    destruct (createEmptyScope_represents h)
      as (s & o & h' & Hrun & Hrep & _ & Hs & _ & Hframe & _).
    exists s, h'. split_and!; try done.
    apply (represents_contents _ _ _ _ Hrep).
  - intros h arr Harr.
    destruct (groupPluginApi_contents h arr [] Harr) as (s & h' & Hrun & Hc & _).
    by exists s, h'.
Qed.

Lemma createEmptyScope_empty_witness :
  store_with [] !! 1%positive = Some (Arr []) ∧
  ∃ s h',
    groupPluginApi 1%positive (store_with []) = Some (s, h') ∧
    contents h' s = Some empty_contents.
Proof.
  split; [reflexivity|].
  apply (proj2 createEmptyScope_empty (store_with []) 1%positive).
  reflexivity.
Defined.

(** C9: [groupPluginApi] leaves the input array, and every other object
    that was in the store before the call, as it was; all it adds to the
    store is the new scope object it returns and the six arrays of that
    scope. *)
Theorem groupPluginApi_frame (h : heap) (arr : loc) (ds : list ApiDeclaration) :
  h !! arr = Some (Arr ds) →
  ∃ s o h',
    groupPluginApi arr h = Some (s, h') ∧
    h' !! arr = Some (Arr ds) ∧
    (∀ l, l ∈ dom h → h' !! l = h !! l) ∧
    h' !! s = Some (Scope o) ∧
    (s ∉ dom h) ∧
    (∀ b, field b o ∉ dom h) ∧
    (∀ l, l ∈ dom h' → l ∈ dom h ∨ l = s ∨ ∃ b, l = field b o).
Proof.
  intros Harr.
  destruct (groupPluginApi_represents h arr ds Harr)
    as (s & o & h' & Hrun & Hrep & _ & Hs & Hf & Hframe & Hdom).
  exists s, o, h'. split_and!; try done.
  - rewrite Hframe; [done|]. apply elem_of_dom. eauto.
  - by destruct Hrep.
Qed.

Lemma groupPluginApi_frame_witness :
  store_with mixed !! 1%positive = Some (Arr mixed) ∧
  ∃ s o h',
    groupPluginApi 1%positive (store_with mixed) = Some (s, h') ∧
    h' !! 1%positive = Some (Arr mixed) ∧
    (∀ l, l ∈ dom (store_with mixed) → h' !! l = store_with mixed !! l) ∧
    h' !! s = Some (Scope o) ∧
    (s ∉ dom (store_with mixed)) ∧
    (∀ b, field b o ∉ dom (store_with mixed)) ∧
    (∀ l, l ∈ dom h' → l ∈ dom (store_with mixed) ∨ l = s ∨ ∃ b, l = field b o).
Proof.
  split; [reflexivity|].
  apply (groupPluginApi_frame (store_with mixed) 1%positive mixed).
  reflexivity.
Defined.

(** C10, as stated, fails: for a scope whose classes and misc fields refer
    to one array, a call for a class declaration appends to classes, and
    misc, one of the other five sequences, is not what it was. *)
Lemma addApiDeclarationToScope_shared_array :
  ∃ c h' c',
    shared_store !! 7%positive = Some (Scope shared_scope) ∧
    well_typed shared_store shared_scope ∧
    contents shared_store 7%positive = Some c ∧
    addApiDeclarationToScope (decl "c" (Some ClassKind) None) 7%positive shared_store
      = Some (tt, h') ∧
    contents h' 7%positive = Some c' ∧
    c_classes c' = c_classes c ++ [decl "c" (Some ClassKind) None] ∧
    c_misc c' ≠ c_misc c.
Proof.
  eexists _, _, _. split_and!.
  - reflexivity.
  - intros []; eexists; reflexivity.
  - vm_compute. reflexivity.
  - vm_compute. reflexivity.
  - vm_compute. reflexivity.
  - reflexivity.
  - simpl. discriminate.
Qed.

(** C10 (amended): one call of [addApiDeclarationToScope] succeeds and
    changes a single object of the store: it assigns the setup slot of the
    scope, or assigns its start slot, or appends the declaration to the
    array of one sequence field.  For a scope whose six fields refer to
    six different arrays: one slot is assigned and the other slot and the
    six sequences are unchanged, or one sequence gets the declaration
    appended and the two slots and the other five sequences are
    unchanged. *)
Theorem addApiDeclarationToScope_frame (h : heap) (s : loc) (o : ScopeApi)
    (d : ApiDeclaration) :
  h !! s = Some (Scope o) →
  well_typed h o →
  ∃ h',
    addApiDeclarationToScope d s h = Some (tt, h') ∧
    (h' = <[s := Scope (with_setup d o)]> h ∨
     h' = <[s := Scope (with_start d o)]> h ∨
     ∃ b xs, h !! field b o = Some (Arr xs) ∧
             h' = <[field b o := Arr (xs ++ [d])]> h) ∧
    (separated o →
     ∀ c, contents h s = Some c →
       ∃ c',
         contents h' s = Some c' ∧
         ((c_setup c' = Some d ∧ c_start c' = c_start c ∧
           ∀ b, bucket b c' = bucket b c) ∨
          (c_start c' = Some d ∧ c_setup c' = c_setup c ∧
           ∀ b, bucket b c' = bucket b c) ∨
          (∃ b, bucket b c' = bucket b c ++ [d] ∧
                (∀ b', b' ≠ b → bucket b' c' = bucket b' c) ∧
                c_setup c' = c_setup c ∧ c_start c' = c_start c))).
Proof.
  intros Hs Hty.
  pose proof (addApiDeclarationToScope_run d s o h Hs) as Hrun.
  assert (∃ h', addApiDeclarationToScope d s h = Some (tt, h') ∧
    (h' = <[s := Scope (with_setup d o)]> h ∨
     h' = <[s := Scope (with_start d o)]> h ∨
     ∃ b xs, h !! field b o = Some (Arr xs) ∧
             h' = <[field b o := Arr (xs ++ [d])]> h)) as (h' & Hh' & Hcell).
  { destruct (place d) as [| |b].
    - eexists. split; [exact Hrun|]. by left.
    - eexists. split; [exact Hrun|]. right. by left.
    - destruct (Hty b) as [xs Hxs]. eexists. split; [exact (Hrun xs Hxs)|].
      right. right. by exists b, xs. }
  exists h'. split_and!; [done|done|].
  intros Hsep c [o2 Hrep]%contents_represents.
  assert (o2 = o) as ->.
  { destruct Hrep as (Hs2 & _). congruence. }
  destruct (addApiDeclarationToScope_represents d h s o c Hrep Hsep)
    as (h2 & o' & Hrun2 & Hrep2 & _).
  assert (h2 = h') as -> by congruence.
  exists (put d c). split; [by eapply represents_contents|].
  unfold put. destruct (place d) as [| |b].
  - left. split_and!; [done|done|]. by intros [].
  - right. left. split_and!; [done|done|]. by intros [].
  - right. right. exists b. split_and!; [|intros b' Hb'|done|done].
    + apply bucket_append_to_eq.
    + by apply bucket_append_to_ne.
Qed.

Lemma addApiDeclarationToScope_frame_witness :
  filled_store !! 7%positive = Some (Scope filled_scope) ∧
  well_typed filled_store filled_scope ∧
  ∃ h',
    addApiDeclarationToScope (decl "f" (Some FunctionKind) None) 7%positive
      filled_store = Some (tt, h') ∧
    (h' = <[7%positive :=
              Scope (with_setup (decl "f" (Some FunctionKind) None) filled_scope)]>
            filled_store ∨
     h' = <[7%positive :=
              Scope (with_start (decl "f" (Some FunctionKind) None) filled_scope)]>
            filled_store ∨
     ∃ b xs, filled_store !! field b filled_scope = Some (Arr xs) ∧
             h' = <[field b filled_scope :=
                      Arr (xs ++ [decl "f" (Some FunctionKind) None])]> filled_store) ∧
    (separated filled_scope →
     ∀ c, contents filled_store 7%positive = Some c →
       ∃ c',
         contents h' 7%positive = Some c' ∧
         ((c_setup c' = Some (decl "f" (Some FunctionKind) None) ∧
           c_start c' = c_start c ∧
           ∀ b, bucket b c' = bucket b c) ∨
          (c_start c' = Some (decl "f" (Some FunctionKind) None) ∧
           c_setup c' = c_setup c ∧
           ∀ b, bucket b c' = bucket b c) ∨
          (∃ b, bucket b c' = bucket b c ++ [decl "f" (Some FunctionKind) None] ∧
                (∀ b', b' ≠ b → bucket b' c' = bucket b' c) ∧
                c_setup c' = c_setup c ∧ c_start c' = c_start c))).
Proof.
  assert (well_typed filled_store filled_scope) as Hty.
  { intros []; eexists; reflexivity. }
  split_and!; [reflexivity|exact Hty|].
  apply (addApiDeclarationToScope_frame filled_store 7%positive filled_scope
           (decl "f" (Some FunctionKind) None)).
  - reflexivity.
  - exact Hty.
Defined.

(** ** The examples of the specification, evaluated *)

Example groupPluginApi_one_of_each :
  ∃ s h',
    groupPluginApi 1%positive (store_with one_of_each) = Some (s, h') ∧
    contents h' s =
      Some {| c_setup := None; c_start := None;
              c_classes := [decl "c" (Some ClassKind) None];
              c_functions := [decl "f" (Some FunctionKind) None];
              c_interfaces := [decl "i" (Some InterfaceKind) None];
              c_objects := [decl "o" (Some ObjectKind) None];
              c_enums := [decl "e" (Some EnumKind) None];
              c_misc := [decl "u" (Some (OtherKind "Unknown")) None] |}.
Proof. eexists _, _. split; vm_compute; reflexivity. Qed.

Example groupPluginApi_mixed :
  ∃ s h',
    groupPluginApi 1%positive (store_with mixed) = Some (s, h') ∧
    contents h' s =
      Some {| c_setup := Some (decl "setup" (Some ObjectKind) (Some SETUP));
              c_start := Some (decl "start" (Some ObjectKind) (Some START));
              c_classes := [];
              c_functions := [decl "f" (Some FunctionKind) None;
                              decl "g" (Some FunctionKind) None];
              c_interfaces := [];
              c_objects := [];
              c_enums := [];
              c_misc := [decl "t" None None] |} ∧
    countScopeApi s h' = Some (5, h').
Proof. eexists _, _. split_and!; vm_compute; reflexivity. Qed.

(** * More on grouping *)

Lemma represents_frame (h h' : heap) s o c :
  represents h s o c →
  (∀ l, l ∈ dom h → h' !! l = h !! l) →
  represents h' s o c.
Proof.
  intros (Hs & Hsetup & Hstart & Hb) Hframe. split_and!; try done.
  - rewrite Hframe; [done|]. apply elem_of_dom. eauto.
  - intros b. rewrite Hframe; [done|]. apply elem_of_dom. eauto.
Qed.

(** X19: two calls of [groupPluginApi] return two different scope objects
    that share no array, and the second call leaves the result of the
    first as it was. *)
Theorem groupPluginApi_independent (h : heap) (arr1 arr2 : loc)
    (ds1 ds2 : list ApiDeclaration) :
  h !! arr1 = Some (Arr ds1) →
  h !! arr2 = Some (Arr ds2) →
  ∃ s1 h1 s2 h2 o1 o2 c1,
    groupPluginApi arr1 h = Some (s1, h1) ∧
    groupPluginApi arr2 h1 = Some (s2, h2) ∧
    s1 ≠ s2 ∧
    h2 !! s1 = Some (Scope o1) ∧
    h2 !! s2 = Some (Scope o2) ∧
    (∀ b b', field b o1 ≠ field b' o2) ∧
    contents h1 s1 = Some c1 ∧
    contents h2 s1 = Some c1.
Proof.
  intros Harr1 Harr2.
  destruct (groupPluginApi_represents h arr1 ds1 Harr1)
    as (s1 & o1 & h1 & Hrun1 & Hrep1 & _ & _ & _ & Hframe1 & _).
  assert (h1 !! arr2 = Some (Arr ds2)) as Harr2'.
  { rewrite Hframe1; [done|]. apply elem_of_dom. eauto. }
  destruct (groupPluginApi_represents h1 arr2 ds2 Harr2')
    as (s2 & o2 & h2 & Hrun2 & Hrep2 & _ & Hs2 & Hf2 & Hframe2 & _).
  pose proof (represents_frame h1 h2 s1 o1 _ Hrep1 Hframe2) as Hrep1'.
  exists s1, h1, s2, h2, o1, o2, (classified ds1). split_and!; try done.
  - intros ->. apply Hs2. apply elem_of_dom. destruct Hrep1 as (E & _). eauto.
  - by destruct Hrep1'.
  - by destruct Hrep2.
  - intros b b' E. apply (Hf2 b'). rewrite <- E. apply elem_of_dom.
    destruct Hrep1 as (_ & _ & _ & Hb). eauto.
  - by eapply represents_contents.
  - by eapply represents_contents.
Qed.

Lemma groupPluginApi_independent_witness :
  store_with mixed !! 1%positive = Some (Arr mixed) ∧
  ∃ s1 h1 s2 h2 o1 o2 c1,
    groupPluginApi 1%positive (store_with mixed) = Some (s1, h1) ∧
    groupPluginApi 1%positive h1 = Some (s2, h2) ∧
    s1 ≠ s2 ∧
    h2 !! s1 = Some (Scope o1) ∧
    h2 !! s2 = Some (Scope o2) ∧
    (∀ b b', field b o1 ≠ field b' o2) ∧
    contents h1 s1 = Some c1 ∧
    contents h2 s1 = Some c1.
Proof.
  split; [reflexivity|].
  apply (groupPluginApi_independent (store_with mixed) 1%positive 1%positive
           mixed mixed); reflexivity.
Defined.

(** X20: adding one more declaration with [addApiDeclarationToScope] to
    the scope that [groupPluginApi] returned for a sequence gives the
    contents that [groupPluginApi] returns for the sequence with that
    declaration at its end. *)
Theorem addApiDeclarationToScope_groupPluginApi (h : heap) (arr : loc)
    (ds : list ApiDeclaration) (d : ApiDeclaration) :
  h !! arr = Some (Arr ds) →
  ∃ s h1 h2 c,
    groupPluginApi arr h = Some (s, h1) ∧
    addApiDeclarationToScope d s h1 = Some (tt, h2) ∧
    contents h2 s = Some c ∧
    ∀ (h' : heap) (arr' : loc),
      h' !! arr' = Some (Arr (ds ++ [d])) →
      ∃ s' h'', groupPluginApi arr' h' = Some (s', h'') ∧ contents h'' s' = Some c.
Proof.
  intros Harr.
  destruct (groupPluginApi_represents h arr ds Harr)
    as (s & o & h1 & Hrun & Hrep & Hsep & _).
  destruct (addApiDeclarationToScope_represents d h1 s o _ Hrep Hsep)
    as (h2 & o' & Hadd & Hrep' & _).
  rewrite <- classified_snoc in Hrep'.
  exists s, h1, h2, (classified (ds ++ [d])). split_and!; [done|done| |].
  - by eapply represents_contents.
  - intros h' arr' Harr'.
    destruct (groupPluginApi_contents h' arr' _ Harr') as (s' & h'' & ? & ? & _).
    by exists s', h''.
Qed.

Lemma addApiDeclarationToScope_groupPluginApi_witness :
  store_with two_setups !! 1%positive = Some (Arr two_setups) ∧
  ∃ s h1 h2 c,
    groupPluginApi 1%positive (store_with two_setups) = Some (s, h1) ∧
    addApiDeclarationToScope (decl "f" (Some FunctionKind) None) s h1 = Some (tt, h2) ∧
    contents h2 s = Some c ∧
    ∀ (h' : heap) (arr' : loc),
      h' !! arr' = Some (Arr (two_setups ++ [decl "f" (Some FunctionKind) None])) →
      ∃ s' h'', groupPluginApi arr' h' = Some (s', h'') ∧ contents h'' s' = Some c.
Proof.
  split; [reflexivity|].
  apply (addApiDeclarationToScope_groupPluginApi (store_with two_setups) 1%positive
           two_setups (decl "f" (Some FunctionKind) None)).
  reflexivity.
Defined.

(** * Strings, plugins and section ids *)

Lemma lower_char_not_upper c : is_upper c = false → lower_char c = c.
Proof. unfold lower_char. by intros ->. Qed.

Lemma upper_lower_char c :
  is_upper c = true → is_lower (lower_char c) = true ∧ upper_char (lower_char c) = c.
Proof.
  destruct c as [[] [] [] [] [] [] [] []]; vm_compute; intros; done.
Qed.

Lemma lower_upper_char c :
  is_lower c = true → is_upper (upper_char c) = true ∧ lower_char (upper_char c) = c.
Proof.
  destruct c as [[] [] [] [] [] [] [] []]; vm_compute; intros; done.
Qed.

Lemma is_upper_lower_char c :
  (nat_of_ascii c <? 128) = true → is_upper (lower_char c) = false.
Proof.
  destruct c as [[] [] [] [] [] [] [] []]; vm_compute; intros; done.
Qed.

Lemma camel_group_separator c1 c2 :
  is_separator c1 = true → is_lower c2 = true →
  camel_group (String c1 (String c2 EmptyString)) = String (upper_char c2) EmptyString.
Proof.
  intros H1 H2.
  assert (c1 = "-"%char ∨ c1 = "_"%char) as [-> | ->].
  { unfold is_separator in H1. apply orb_true_iff in H1 as [H|H];
      apply Ascii.eqb_eq in H; auto. }
  - destruct c2 as [[] [] [] [] [] [] [] []]; vm_compute in H2; try done;
      vm_compute; done.
  - destruct c2 as [[] [] [] [] [] [] [] []]; vm_compute in H2; try done;
      vm_compute; done.
Qed.

Lemma camelToSnake_cons c s :
  camelToSnake (String c s) =
  if is_upper c then String "_" (String (lower_char c) (camelToSnake s))
  else String (lower_char c) (camelToSnake s).
Proof. unfold camelToSnake. simpl. by destruct (is_upper c). Qed.

Lemma snakeToCamel_pair c1 c2 rest :
  snakeToCamel (String c1 (String c2 rest)) =
  if is_separator c1 && is_lower c2
  then camel_group (String c1 (String c2 EmptyString)) +:+ snakeToCamel rest
  else String c1 (snakeToCamel (String c2 rest)).
Proof. reflexivity. Qed.

Lemma string_pair_ind (P : string → Prop) :
  P EmptyString →
  (∀ c, P (String c EmptyString)) →
  (∀ c1 c2 rest, P rest → P (String c2 rest) → P (String c1 (String c2 rest))) →
  ∀ s, P s.
Proof.
  intros H0 H1 H2.
  assert (∀ s, P s ∧ ∀ c, P (String c s)) as H.
  { induction s as [|c s [IH1 IH2]]; [by split|]. split; [apply IH2|].
    intros c1. by apply H2. }
  intros s. apply H.
Qed.

Lemma snakeToCamel_camelToSnake_ascii (s : string) :
  ascii_only s = true →
  no_separator_letter s = true →
  snakeToCamel (camelToSnake s) = s.
Proof.
  induction s as [|c s IH]; [done|].
  intros Hascii Hno. simpl in Hascii, Hno.
  apply andb_true_iff in Hascii as [Hc Hascii].
  apply andb_true_iff in Hno as [Hhead Hno].
  specialize (IH Hascii Hno).
  rewrite camelToSnake_cons. destruct (is_upper c) eqn:Hup.
  - destruct (upper_lower_char c Hup) as [Hlow Hback].
    rewrite snakeToCamel_pair. simpl is_separator. rewrite Hlow. simpl andb.
    rewrite camel_group_separator by done. rewrite Hback, IH. done.
  - rewrite (lower_char_not_upper c Hup).
    destruct s as [|d s'].
    + done.
    + rewrite camelToSnake_cons in *.
      assert (is_separator c && is_lower d = false) as Hcd.
      { by apply negb_true_iff in Hhead. }
      destruct (is_upper d) eqn:Hd.
      * rewrite snakeToCamel_pair.
        replace (is_separator c && is_lower "_") with false
          by (by rewrite andb_false_r).
        by rewrite IH.
      * rewrite (lower_char_not_upper d Hd) in *.
        rewrite snakeToCamel_pair, Hcd. by rewrite IH.
Qed.


(** X1: [snakeToCamel] undoes [camelToSnake] on every string of ASCII
    characters in which no [-] or [_] stands directly before a lowercase
    letter; on these strings [camelToSnake] is injective. *)
Theorem snakeToCamel_camelToSnake (s : string) :
  ascii_only s = true →
  no_separator_letter s = true →
  snakeToCamel (camelToSnake s) = s ∧
  ∀ t, ascii_only t = true → no_separator_letter t = true →
       camelToSnake t = camelToSnake s → t = s.
Proof.
  intros Hascii Hno. split.
  - by apply snakeToCamel_camelToSnake_ascii.
  - intros t Ht1 Ht2 E.
    rewrite <- (snakeToCamel_camelToSnake_ascii t Ht1 Ht2).
    rewrite <- (snakeToCamel_camelToSnake_ascii s Hascii Hno).
    by rewrite E.
Qed.

Lemma snakeToCamel_camelToSnake_witness :
  ascii_only "fooBarBaz" = true ∧
  no_separator_letter "fooBarBaz" = true ∧
  snakeToCamel (camelToSnake "fooBarBaz") = "fooBarBaz" ∧
  ∀ t, ascii_only t = true → no_separator_letter t = true →
       camelToSnake t = camelToSnake "fooBarBaz" → t = "fooBarBaz".
Proof.
  split; [reflexivity|]. split; [reflexivity|].
  apply (snakeToCamel_camelToSnake "fooBarBaz"); reflexivity.
Defined.

Lemma is_separator_upper_char c : is_lower c = true → is_separator (upper_char c) = false.
Proof.
  destruct c as [[] [] [] [] [] [] [] []]; vm_compute; intros; done.
Qed.

Lemma is_lower_upper_char c : is_lower c = true → is_lower (upper_char c) = false.
Proof.
  destruct c as [[] [] [] [] [] [] [] []]; vm_compute; intros; done.
Qed.

Lemma snakeToCamel_match c1 c2 rest :
  is_separator c1 = true → is_lower c2 = true →
  snakeToCamel (String c1 (String c2 rest)) = String (upper_char c2) (snakeToCamel rest).
Proof.
  intros H1 H2. rewrite snakeToCamel_pair, H1, H2. simpl andb.
  by rewrite camel_group_separator.
Qed.

Lemma snakeToCamel_no_match c1 c2 rest :
  is_separator c1 && is_lower c2 = false →
  snakeToCamel (String c1 (String c2 rest)) = String c1 (snakeToCamel (String c2 rest)).
Proof. intros H. by rewrite snakeToCamel_pair, H. Qed.

(** X2: [camelToSnake] undoes [snakeToCamel] on every string of ASCII
    characters without capital letter in which no [-] stands directly
    before a lowercase letter; a hyphen before a letter is not restored,
    since [snakeToCamel] treats [-] and [_] alike. *)
Theorem camelToSnake_snakeToCamel (s : string) :
  ascii_only s = true →
  all_chars (λ c, negb (is_upper c)) s = true →
  no_hyphen_letter s = true →
  camelToSnake (snakeToCamel s) = s.
Proof.
  induction s as [| c | c1 c2 rest IHrest IHtl] using string_pair_ind.
  - done.
  - intros _ Hup _. simpl in Hup. rewrite andb_true_r in Hup.
    apply negb_true_iff in Hup. simpl snakeToCamel.
    rewrite camelToSnake_cons, Hup. by rewrite lower_char_not_upper.
  - intros Hascii Hup Hno.
    simpl in Hascii. apply andb_true_iff in Hascii as [_ Hascii].
    change (all_chars (λ c, negb (is_upper c)) (String c1 (String c2 rest)))
      with (negb (is_upper c1) && all_chars (λ c, negb (is_upper c)) (String c2 rest))
      in Hup.
    apply andb_true_iff in Hup as [Hup1 Hup].
    apply negb_true_iff in Hup1.
    change (no_hyphen_letter (String c1 (String c2 rest)))
      with (negb (Ascii.eqb c1 "-" && is_lower c2) && no_hyphen_letter (String c2 rest))
      in Hno.
    apply andb_true_iff in Hno as [Hhy Hno]. apply negb_true_iff in Hhy.
    destruct (is_separator c1 && is_lower c2) eqn:Hm.
    + apply andb_true_iff in Hm as [Hsep Hlow].
      assert (c1 = "_"%char) as ->.
      { rewrite Hlow, andb_true_r in Hhy. unfold is_separator in Hsep.
        rewrite Hhy in Hsep. by apply Ascii.eqb_eq in Hsep. }
      rewrite snakeToCamel_match by done.
      destruct (lower_upper_char c2 Hlow) as [Hu Hback].
      rewrite camelToSnake_cons, Hu, Hback. f_equal. f_equal.
      apply IHrest.
      * simpl in Hascii. by apply andb_true_iff in Hascii as [_ ?].
      * simpl in Hup. by apply andb_true_iff in Hup as [_ ?].
      * destruct rest; [done|]. simpl in Hno |- *.
        by apply andb_true_iff in Hno as [_ ?].
    + rewrite snakeToCamel_no_match by done.
      rewrite camelToSnake_cons, Hup1, (lower_char_not_upper c1 Hup1).
      f_equal. by apply IHtl.
Qed.

Lemma camelToSnake_snakeToCamel_witness :
  ascii_only "foo_bar_baz" = true ∧
  all_chars (λ c, negb (is_upper c)) "foo_bar_baz" = true ∧
  no_hyphen_letter "foo_bar_baz" = true ∧
  camelToSnake (snakeToCamel "foo_bar_baz") = "foo_bar_baz".
Proof.
  split_and!; [reflexivity|reflexivity|reflexivity|].
  apply (camelToSnake_snakeToCamel "foo_bar_baz"); reflexivity.
Defined.

(** X3: for a string of ASCII characters, the result of [camelToSnake]
    has no capital letter and is longer than the input by the number of
    capital letters of the input. *)
Theorem camelToSnake_lowercase (s : string) :
  ascii_only s = true →
  all_chars (λ c, negb (is_upper c)) (camelToSnake s) = true ∧
  String.length (camelToSnake s) = String.length s + count_chars is_upper s.
Proof.
  induction s as [|c s IH]; [done|].
  intros Hascii. simpl in Hascii. apply andb_true_iff in Hascii as [Hc Hascii].
  destruct (IH Hascii) as [IH1 IH2].
  rewrite camelToSnake_cons. simpl count_chars.
  pose proof (is_upper_lower_char c Hc) as Hlow.
  destruct (is_upper c); simpl; rewrite Hlow, IH1, IH2; split; try done; lia.
Qed.

Lemma camelToSnake_lowercase_witness :
  ascii_only "fooBar" = true ∧
  all_chars (λ c, negb (is_upper c)) (camelToSnake "fooBar") = true ∧
  String.length (camelToSnake "fooBar") =
    String.length "fooBar" + count_chars is_upper "fooBar".
Proof.
  split; [reflexivity|].
  apply (camelToSnake_lowercase "fooBar"). reflexivity.
Defined.

Lemma snakeToCamel_head c s :
  ∃ t, snakeToCamel (String c s) = String c t ∨
       ∃ d, is_lower d = true ∧ snakeToCamel (String c s) = String (upper_char d) t.
Proof.
  destruct s as [|c2 rest].
  - exists EmptyString. by left.
  - destruct (is_separator c && is_lower c2) eqn:Hm.
    + apply andb_true_iff in Hm as [Hsep Hlow].
      exists (snakeToCamel rest). right. exists c2. split; [done|].
      by apply snakeToCamel_match.
    + exists (snakeToCamel (String c2 rest)). left. by apply snakeToCamel_no_match.
Qed.

Lemma no_separator_letter_cons c s :
  no_separator_letter (String c s) =
  match s with
  | EmptyString => true
  | String c2 _ => negb (is_separator c && is_lower c2)
  end && no_separator_letter s.
Proof. reflexivity. Qed.

Lemma snakeToCamel_no_separator_letter s :
  no_separator_letter s = true → snakeToCamel s = s.
Proof.
  induction s as [| c | c1 c2 rest _ IHtl] using string_pair_ind; [done..|].
  rewrite no_separator_letter_cons. intros [Hm Hno]%andb_true_iff.
  apply negb_true_iff in Hm. rewrite snakeToCamel_no_match by done.
  by rewrite IHtl.
Qed.

(** X4: in the result of [snakeToCamel] no [-] or [_] stands directly
    before a lowercase letter, so a second application changes nothing;
    the result is never longer than the input. *)
Theorem snakeToCamel_normal (s : string) :
  no_separator_letter (snakeToCamel s) = true ∧
  snakeToCamel (snakeToCamel s) = snakeToCamel s ∧
  String.length (snakeToCamel s) ≤ String.length s.
Proof.
  assert (no_separator_letter (snakeToCamel s) = true ∧
          String.length (snakeToCamel s) ≤ String.length s) as [H1 H2].
  { induction s as [| c | c1 c2 rest IHrest IHtl] using string_pair_ind.
    - done.
    - done.
    - destruct IHrest as [IHr1 IHr2], IHtl as [IHt1 IHt2].
      destruct (is_separator c1 && is_lower c2) eqn:Hm.
      + apply andb_true_iff in Hm as [Hsep Hlow].
        rewrite snakeToCamel_match by done. split; [|simpl; lia].
        rewrite no_separator_letter_cons, IHr1, andb_true_r.
        destruct (snakeToCamel rest); [done|].
        by rewrite is_separator_upper_char.
      + rewrite snakeToCamel_no_match by done. split; [|simpl in *; lia].
        rewrite no_separator_letter_cons, IHt1, andb_true_r.
        destruct (snakeToCamel_head c2 rest) as [t [Ht|(d & Hd & Ht)]]; rewrite Ht.
        * by rewrite Hm.
        * by rewrite (is_lower_upper_char d Hd), andb_false_r. }
  split_and!; [done| |done]. by apply snakeToCamel_no_separator_letter.
Qed.

(** X5: for an empty string or a string whose first character is ASCII,
    [capitalize] is idempotent, keeps the length and changes nothing after
    the first character. *)
Theorem capitalize_idempotent (str : string) :
  ascii_only (charAt0 str) = true →
  capitalize (capitalize str) = capitalize str ∧
  String.length (capitalize str) = String.length str ∧
  slice1 (capitalize str) = slice1 str.
Proof.
  destruct str as [|c s]; [done|]. intros Hc.
  assert (upper_char (upper_char c) = upper_char c) as Hcc.
  { revert Hc. destruct c as [[] [] [] [] [] [] [] []]; vm_compute; intros; done. }
  assert (∀ d t, capitalize (String d t) = String (upper_char d) t) as Hcap
    by reflexivity.
  rewrite !Hcap, Hcc. done.
Qed.

Lemma capitalize_idempotent_witness :
  ascii_only (charAt0 "fooBar") = true ∧
  capitalize (capitalize "fooBar") = capitalize "fooBar" ∧
  String.length (capitalize "fooBar") = String.length "fooBar" ∧
  slice1 (capitalize "fooBar") = slice1 "fooBar".
Proof.
  split; [reflexivity|].
  apply (capitalize_idempotent "fooBar"). reflexivity.
Defined.

Lemma count_chars_app P s t :
  count_chars P (s +:+ t) = count_chars P s + count_chars P t.
Proof. induction s as [|c s IH]; [done|]. simpl. rewrite IH. lia. Qed.





Lemma startsWith_app path prefix :
  startsWith path prefix = true ↔ ∃ rest, path = prefix +:+ rest.
Proof.
  revert path. induction prefix as [|p prefix IH]; intros path.
  - destruct path; simpl; split; eauto.
  - destruct path as [|c path]; simpl.
    + split; [done|]. by intros [rest ?].
    + rewrite andb_true_iff, IH, Ascii.eqb_eq. split.
      * intros [-> [rest ->]]. by exists rest.
      * intros [rest [= -> ->]]. eauto.
Qed.

(** X7: [getPluginForPath] returns the first plugin of the list whose
    directory is a prefix of the path as a string, and [undefined] exactly
    when no directory of the list is a prefix of the path. *)
Theorem getPluginForPath_first (path : string) (plugins : list KibanaPlatformPlugin) :
  match getPluginForPath path plugins with
  | Some plugin =>
      ∃ before after rest,
        plugins = before ++ plugin :: after ∧
        path = directory plugin +:+ rest ∧
        ∀ q, q ∈ before → ∀ rest', path ≠ directory q +:+ rest'
  | None => ∀ q, q ∈ plugins → ∀ rest', path ≠ directory q +:+ rest'
  end.
Proof.
  unfold getPluginForPath. induction plugins as [|p plugins IH]; simpl.
  - intros q Hq. by apply elem_of_nil in Hq.
  - destruct (startsWith path (directory p)) eqn:Hp.
    + apply startsWith_app in Hp as [rest Hrest].
      exists [], plugins, rest. split_and!; [done|done|].
      intros q Hq. by apply elem_of_nil in Hq.
    + assert (∀ rest', path ≠ directory p +:+ rest') as Hne.
      { intros rest' E. assert (startsWith path (directory p) = true) as Ht
          by (apply startsWith_app; eauto). congruence. }
      destruct (find _ plugins) as [plugin|].
      * destruct IH as (before & after & rest & -> & Hrest & Hbefore).
        exists (p :: before), after, rest. split_and!; [done|done|].
        intros q [->|Hq]%elem_of_cons; [done|]. by apply Hbefore.
      * intros q [->|Hq]%elem_of_cons; [done|]. by apply IH.
Qed.

(** X8: for a path that starts with the directory of a plugin followed by
    any text, a directory separator or not, [getPluginForPath] returns
    that plugin or one listed before it: a plugin listed after one whose
    directory is a prefix of its own is never found for its own files. *)
Theorem getPluginForPath_nested (before after : list KibanaPlatformPlugin)
    (plugin : KibanaPlatformPlugin) (suffix file : string) :
  ∃ q,
    getPluginForPath (directory plugin +:+ suffix +:+ file)
      (before ++ plugin :: after) = Some q ∧
    q ∈ before ++ [plugin].
Proof.
  unfold getPluginForPath. induction before as [|p before IH]; simpl.
  - assert (startsWith (directory plugin +:+ suffix +:+ file) (directory plugin) = true)
      as -> by (apply startsWith_app; eauto).
    exists plugin. split; [done|]. apply list_elem_of_here.
  - destruct (startsWith _ (directory p)).
    + exists p. split; [done|]. apply list_elem_of_here.
    + destruct IH as (q & Hq & Hin). exists q. split; [done|].
      by apply list_elem_of_further.
Qed.

Example getServiceForPath_documented :
  getServiceForPath "src/plugins/data/public/search_services/file.ts" "src/plugins/data"
    = Some "search_services" ∧
  getServiceForPath "src/plugin/data/server/file.ts" "src/plugin/data" = None ∧
  snd (getPluginApiDocId "data.search" None) = "kibDataSearchPluginApi" ∧
  getPluginApiDocId "data"
    (Some {| serviceFolders := Some ["search_services"; "query"];
             apiPath := "src/plugins/data/public/search_services/file.ts";
             service_directory := "src/plugins/data" |}) =
  (["Service for path src/plugins/data/public/search_services/file.ts and src/plugins/data is search_services"],
   "kibDataSearchServicesPluginApi").
Proof. vm_compute. done. Qed.

Lemma append_assoc s t u : (s +:+ t) +:+ u = s +:+ t +:+ u.
Proof.
  induction s as [|c s IH]; [done|].
  change (String c ((s +:+ t) +:+ u) = String c (s +:+ t +:+ u)). by rewrite IH.
Qed.

Lemma strip_prefix_app prefix s : strip_prefix prefix (prefix +:+ s) = Some s.
Proof.
  induction prefix as [|p prefix IH]; [done|].
  change (strip_prefix (String p prefix) (String p (prefix +:+ s)) = Some s).
  simpl. by rewrite Ascii.eqb_refl.
Qed.

Lemma strip_prefix_Some prefix s rest :
  strip_prefix prefix s = Some rest → s = prefix +:+ rest.
Proof.
  revert s. induction prefix as [|p prefix IH]; intros s; simpl.
  - by intros [= ->].
  - destruct s as [|c s]; [done|]. destruct (Ascii.eqb c p) eqn:E; [|done].
    apply Ascii.eqb_eq in E as ->. intros H. by rewrite (IH _ H).
Qed.

Lemma group_then_slash_app group rest :
  count_chars is_slash group = 0 →
  group_then_slash (group +:+ String "/" rest) = Some group.
Proof.
  induction group as [|c group IH]; [done|].
  cbn [count_chars]. intros H.
  change (group_then_slash (String c (group +:+ String "/" rest)) = Some (String c group)).
  simpl. destruct (Ascii.eqb c "/"); [done|]. by rewrite IH.
Qed.

Lemma group_then_slash_Some s group :
  group_then_slash s = Some group →
  count_chars is_slash group = 0 ∧ ∃ rest, s = group +:+ String "/" rest.
Proof.
  revert group. induction s as [|c s IH]; intros group; [done|]. simpl.
  destruct (Ascii.eqb c "/") eqn:E.
  - intros [= <-]. apply Ascii.eqb_eq in E as ->. split; [done|]. by exists s.
  - destruct (group_then_slash s) as [g|]; [|done]. intros [= <-].
    destruct (IH g eq_refl) as [Hg [rest ->]]. split.
    + cbn [count_chars]. by rewrite E.
    + by exists rest.
Qed.

Lemma match_first_here literal s group :
  match_here literal s = Some group → match_first literal s = Some group.
Proof. intros H. destruct s; simpl; by rewrite H. Qed.

Lemma match_first_Some literal s group :
  match_first literal s = Some group →
  count_chars is_slash group = 0 ∧
  ∃ before rest, s = before +:+ literal +:+ group +:+ String "/" rest.
Proof.
  assert (∀ s, match_here literal s = Some group →
    count_chars is_slash group = 0 ∧
    ∃ rest, s = literal +:+ group +:+ String "/" rest) as Hhere.
  { intros s0 H. unfold match_here in H.
    destruct (strip_prefix literal s0) as [s1|] eqn:E; [|done]. simpl in H.
    apply strip_prefix_Some in E as ->.
    destruct (group_then_slash_Some _ _ H) as [Hg [rest ->]]. eauto. }
  induction s as [|c s IH]; simpl.
  - destruct (match_here literal EmptyString) eqn:E; [|done]. intros [= ->].
    destruct (Hhere _ E) as [Hg [rest Hrest]]. split; [done|].
    by exists EmptyString, rest.
  - destruct (match_here literal (String c s)) eqn:E.
    + intros [= ->]. destruct (Hhere _ E) as [Hg [rest Hrest]]. split; [done|].
      by exists EmptyString, rest.
    + intros H. destruct (IH H) as [Hg (before & rest & ->)]. split; [done|].
      by exists (String c before), rest.
Qed.

Lemma match_folder_public dir folder group rest :
  count_chars is_slash group = 0 →
  match_folder dir folder (dir +:+ "/" +:+ folder +:+ "/" +:+ group +:+ "/" +:+ rest)
    = Some group.
Proof.
  intros Hg. unfold match_folder. apply match_first_here. unfold match_here.
  rewrite <- !append_assoc. rewrite !append_assoc.
  replace (dir +:+ "/" +:+ folder +:+ "/" +:+ group +:+ "/" +:+ rest)
    with ((dir +:+ "/" +:+ folder +:+ "/") +:+ group +:+ String "/" rest).
  - rewrite strip_prefix_app. simpl. by apply group_then_slash_app.
  - by rewrite !append_assoc.
Qed.

Lemma match_folder_slashes dir folder path group :
  match_folder dir folder path = Some group →
  count_chars is_slash dir + count_chars is_slash folder + 3 ≤
  count_chars is_slash path.
Proof.
  intros [_ (before & rest & ->)]%match_first_Some.
  rewrite !count_chars_app. cbn [count_chars]. simpl. lia.
Qed.

Ltac in_list :=
  repeat first [apply list_elem_of_here | apply list_elem_of_further].

(** X9: for a path made of the plugin directory, [/public/], a folder name
    without [/], [/] and anything, [getServiceForPath] returns that folder
    name. *)
Theorem getServiceForPath_public (dir service rest : string) :
  count_chars is_slash service = 0 →
  getServiceForPath (dir +:+ "/public/" +:+ service +:+ "/" +:+ rest) dir
    = Some service.
Proof.
  intros Hs. unfold getServiceForPath.
  change (dir +:+ "/public/" +:+ service +:+ "/" +:+ rest)
    with (dir +:+ "/" +:+ "public" +:+ "/" +:+ service +:+ "/" +:+ rest).
  by rewrite (match_folder_public dir "public" service rest Hs).
Qed.

Lemma getServiceForPath_public_witness :
  count_chars is_slash "search" = 0 ∧
  getServiceForPath ("src/plugins/data" +:+ "/public/" +:+ "search" +:+ "/" +:+ "file.ts")
    "src/plugins/data" = Some "search".
Proof.
  split; [reflexivity|].
  apply (getServiceForPath_public "src/plugins/data" "search" "file.ts").
  reflexivity.
Defined.

(** X10: whatever [getServiceForPath] returns has no [/] and stands in the
    path between [/] and directly after the plugin directory followed by
    [/public/], [/server/] or [/common/]; the plugin directory need not be
    at the start of the path. *)
Theorem getServiceForPath_segment (path dir service : string) :
  getServiceForPath path dir = Some service →
  count_chars is_slash service = 0 ∧
  ∃ folder before rest,
    folder ∈ ["public"; "server"; "common"] ∧
    path = before +:+ dir +:+ "/" +:+ folder +:+ "/" +:+ service +:+ "/" +:+ rest.
Proof.
  unfold getServiceForPath, match_folder. intros H.
  assert (∀ folder, folder ∈ ["public"; "server"; "common"] →
    match_first (dir +:+ "/" +:+ folder +:+ "/") path = Some service →
    count_chars is_slash service = 0 ∧
    ∃ folder before rest,
      folder ∈ ["public"; "server"; "common"] ∧
      path = before +:+ dir +:+ "/" +:+ folder +:+ "/" +:+ service +:+ "/" +:+ rest)
    as Hone.
  { intros folder Hf [Hg (before & rest & ->)]%match_first_Some. split; [done|].
    exists folder, before, rest. split; [done|]. by rewrite !append_assoc. }
  destruct (match_first (dir +:+ "/" +:+ "public" +:+ "/") path) eqn:E1.
  { injection H as ->. apply (Hone "public"); [in_list|done]. }
  destruct (match_first (dir +:+ "/" +:+ "server" +:+ "/") path) eqn:E2.
  { injection H as ->. apply (Hone "server"); [in_list|done]. }
  apply (Hone "common"); [in_list|done].
Qed.

Lemma getServiceForPath_segment_witness :
  getServiceForPath "x/src/plugins/data/server/routes/file.ts" "src/plugins/data"
    = Some "routes" ∧
  count_chars is_slash "routes" = 0 ∧
  ∃ folder before rest,
    folder ∈ ["public"; "server"; "common"] ∧
    "x/src/plugins/data/server/routes/file.ts" =
      before +:+ "src/plugins/data" +:+ "/" +:+ folder +:+ "/" +:+ "routes" +:+ "/" +:+ rest.
Proof.
  split; [reflexivity|].
  apply (getServiceForPath_segment "x/src/plugins/data/server/routes/file.ts"
           "src/plugins/data" "routes").
  reflexivity.
Defined.

(** X11: for a path made of the plugin directory, [/] and a rest with at
    most one [/] (a file directly in the plugin directory or directly in
    one folder of it), [getServiceForPath] returns [undefined]. *)
Theorem getServiceForPath_top_level (dir tail : string) :
  count_chars is_slash tail ≤ 1 →
  getServiceForPath (dir +:+ "/" +:+ tail) dir = None.
Proof.
  intros Htail.
  assert (∀ f, f ∈ ["public"; "server"; "common"] →
    match_folder dir f (dir +:+ "/" +:+ tail) = None) as Hnone.
  { intros f Hin.
    destruct (match_folder dir f _) eqn:E; [|done].
    apply match_folder_slashes in E. rewrite !count_chars_app in E.
    cbn [count_chars] in E. simpl in E. lia. }
  unfold getServiceForPath.
  rewrite (Hnone "public"), (Hnone "server"), (Hnone "common"); [done|in_list..].
Qed.

Lemma getServiceForPath_top_level_witness :
  count_chars is_slash "server/file.ts" ≤ 1 ∧
  getServiceForPath ("src/plugin/data" +:+ "/" +:+ "server/file.ts") "src/plugin/data"
    = None.
Proof.
  split; [vm_compute; lia|].
  apply (getServiceForPath_top_level "src/plugin/data" "server/file.ts").
  vm_compute. lia.
Defined.

Lemma replace_first_absent p r s :
  count_chars (λ c, Ascii.eqb c p) s = 0 → replace_first p r s = s.
Proof.
  induction s as [|c s IH]; [done|]. cbn [count_chars replace_first].
  destruct (Ascii.eqb c p); [done|]. intros H. by rewrite IH.
Qed.

Lemma camelToSnake_dots s :
  count_chars (λ c, Ascii.eqb c ".") (camelToSnake s) =
  count_chars (λ c, Ascii.eqb c ".") s.
Proof.
  assert (∀ c, Ascii.eqb (lower_char c) "." = Ascii.eqb c ".") as Hlow.
  { intros c. destruct c as [[] [] [] [] [] [] [] []]; vm_compute; done. }
  induction s as [|c s IH]; [done|].
  rewrite camelToSnake_cons. destruct (is_upper c); cbn [count_chars];
    rewrite Hlow, IH; done.
Qed.

(** X12: without service information, an id of ASCII characters without
    dot in which no [-] or [_] stands directly before a lowercase letter
    and its [camelToSnake] spelling get the same doc id. *)
Theorem getPluginApiDocId_snake_camel (id : string) :
  ascii_only id = true →
  no_separator_letter id = true →
  count_chars (λ c, Ascii.eqb c ".") id = 0 →
  getPluginApiDocId (camelToSnake id) None = getPluginApiDocId id None.
Proof.
  intros Hascii Hno Hdot. unfold getPluginApiDocId.
  rewrite !replace_first_absent by (by rewrite ?camelToSnake_dots).
  rewrite snakeToCamel_camelToSnake_ascii by done.
  by rewrite snakeToCamel_no_separator_letter.
Qed.

Lemma getPluginApiDocId_snake_camel_witness :
  ascii_only "dataEnhanced" = true ∧
  no_separator_letter "dataEnhanced" = true ∧
  count_chars (λ c, Ascii.eqb c ".") "dataEnhanced" = 0 ∧
  getPluginApiDocId (camelToSnake "dataEnhanced") None =
  getPluginApiDocId "dataEnhanced" None.
Proof.
  split_and!; [reflexivity|reflexivity|reflexivity|].
  apply (getPluginApiDocId_snake_camel "dataEnhanced"); reflexivity.
Defined.

Lemma find_eqb (name : string) (folders : list string) :
  List.find (λ f, String.eqb f name) folders =
  if decide (name ∈ folders) then Some name else None.
Proof.
  induction folders as [|f folders IH].
  - destruct (decide (name ∈ [])) as [Hin|Hin]; [|done].
    by apply elem_of_nil in Hin.
  - cbn [List.find]. destruct (String.eqb f name) eqn:E.
    + apply String.eqb_eq in E as ->.
      destruct (decide (name ∈ name :: folders)) as [Hin|Hin]; [done|].
      destruct Hin. in_list.
    + apply String.eqb_neq in E. rewrite IH.
      destruct (decide (name ∈ folders)) as [Hin|Hin];
        destruct (decide (name ∈ f :: folders)) as [Hin'|Hin']; try done.
      * destruct Hin'. by apply list_elem_of_further.
      * apply elem_of_cons in Hin' as [?|?]; done.
Qed.

(** X13: with service information whose API path lies in a folder of
    [public] of the plugin directory, the doc id has the capitalized camel
    case folder name between the plugin part and [PluginApi] when the
    folder is one of the service folders, and is the id without service
    information otherwise. *)
Theorem getPluginApiDocId_service (id dir service rest : string)
    (folders : list string) :
  count_chars is_slash service = 0 →
  snd (getPluginApiDocId id
         (Some {| serviceFolders := Some folders;
                  apiPath :=
                    dir +:+ "/public/" +:+ service +:+ "/" +:+ rest;
                  service_directory := dir |})) =
  if decide (service ∈ folders)
  then "kib" +:+ (capitalize (snakeToCamel (replace_first "." "_" id)) +:+
                  capitalize (snakeToCamel service)) +:+ "PluginApi"
  else snd (getPluginApiDocId id None).
Proof.
  intros Hs. unfold getPluginApiDocId. cbn [serviceFolders
    apiPath service_directory snd].
  assert (getServiceForPath (dir +:+ "/public/" +:+ service +:+ "/" +:+ rest) dir
          = Some service) as ->.
  { unfold getServiceForPath.
    change (dir +:+ "/public/" +:+ service +:+ "/" +:+ rest)
      with (dir +:+ "/" +:+ "public" +:+ "/" +:+ service +:+ "/" +:+ rest).
    by rewrite (match_folder_public dir "public" service rest Hs). }
  rewrite find_eqb.
  destruct (decide (service ∈ folders)); [|done].
  by destruct service.
Qed.

Lemma getPluginApiDocId_service_witness :
  count_chars is_slash "search_services" = 0 ∧
  snd (getPluginApiDocId "data"
         (Some {| serviceFolders := Some ["search_services"];
                  apiPath :=
                    "src/plugins/data" +:+ "/public/" +:+ "search_services" +:+
                    "/" +:+ "file.ts";
                  service_directory := "src/plugins/data" |})) =
  if decide ("search_services" ∈ ["search_services"])
  then "kib" +:+ (capitalize (snakeToCamel (replace_first "." "_" "data")) +:+
                  capitalize (snakeToCamel "search_services")) +:+ "PluginApi"
  else snd (getPluginApiDocId "data" None).
Proof.
  split; [reflexivity|].
  apply (getPluginApiDocId_service "data" "src/plugins/data" "search_services"
           "file.ts" ["search_services"]).
  reflexivity.
Defined.

(** * Broken links *)

Module BrokenLinksFacts.
Import BrokenLinks.

Lemma R_bind_Some {A B} (m : R A) (k : A → R B) st a st' :
  m st = Some (a, st') → (m ≫= k) st = k a st'.
Proof. intros E. unfold mbind, R_bind. by rewrite E. Qed.

Lemma R_bind_None {A B} (m : R A) (k : A → R B) st :
  m st = None → (m ≫= k) st = None.
Proof. intros E. unfold mbind, R_bind. by rewrite E. Qed.

Lemma read_decl_Some st l d :
  decls st !! l = Some d → read_decl l st = Some (d, st).
Proof. intros E. unfold read_decl. by rewrite E. Qed.

Lemma forEach_app {A} (xs ys : list A) (f : A → R unit) st :
  forEach_array (xs ++ ys) f st = (forEach_array xs f ≫= λ _, forEach_array ys f) st.
Proof.
  revert st. induction xs as [|x xs IH]; intros st; [done|].
  simpl. unfold mbind, R_bind in *. destruct (f x st) as [[[] st1]|]; [|done].
  apply IH.
Qed.

Section facts.

Variable scope_value : ApiScope → string.
Variable pluginApiMap : gmap string PluginApi.

Lemma removeBrokenLinks_listed pluginApi st :
  removeBrokenLinks scope_value pluginApi pluginApiMap st =
  forEach_array (listed pluginApi) (check_declaration scope_value pluginApiMap) st.
Proof.
  unfold removeBrokenLinks, listed. rewrite forEach_app. simpl.
  unfold mbind, R_bind, mret, R_ret.
  destruct (forEach_array (client pluginApi) _ st) as [[[] st1]|]; [|done].
  rewrite forEach_app. unfold mbind, R_bind.
  destruct (forEach_array (common pluginApi) _ st1) as [[[] st2]|]; [|done].
  by destruct (forEach_array (server pluginApi) _ st2) as [[[] st3]|].
Qed.

Lemma labelled_labels h h' name decs :
  dec_label <$> h = dec_label <$> h' →
  labelled h name decs → labelled h' name decs.
Proof.
  intros E (l & d & Hl & Hd & Hn).
  assert ((dec_label <$> h') !! l = Some (dec_label d)) as H.
  { rewrite <- E, lookup_fmap, Hd. done. }
  rewrite lookup_fmap in H. apply fmap_Some in H as (d' & Hd' & Hlab).
  exists l, d'. split_and!; [done|done|congruence].
Qed.

Lemma resolves_labels h h' r :
  dec_label <$> h = dec_label <$> h' →
  resolves h pluginApiMap r → resolves h' pluginApiMap r.
Proof.
  intros E (api & Hapi & Hl). exists api. split; [done|].
  by eapply labelled_labels.
Qed.

Lemma has_label_run name decs st :
  (∀ l, l ∈ decs → is_Some (decls st !! l)) →
  ∃ b, has_label name decs st = Some (b, st) ∧
       (b = true ↔ labelled (decls st) name decs).
Proof.
  induction decs as [|l decs IH]; intros Hin.
  - exists false. split; [done|]. split; [done|].
    intros (l & d & Hl & _). by apply elem_of_nil in Hl.
  - destruct (Hin l) as [d Hd]; [apply list_elem_of_here|].
    simpl. rewrite (R_bind_Some _ _ _ _ _ (read_decl_Some _ _ _ Hd)).
    destruct (decide (dec_label d = name)) as [Hn|Hn].
    + exists true. split; [done|]. split; [|done]. intros _.
      exists l, d. split_and!; [apply list_elem_of_here|done|done].
    + destruct IH as (b & Hrun & Hb).
      { intros l' Hl'. apply Hin. by apply list_elem_of_further. }
      exists b. split; [done|]. rewrite Hb. split.
      * intros (l' & d' & Hl' & Hd' & Hn'). exists l', d'.
        split_and!; [by apply list_elem_of_further|done|done].
      * intros (l' & d' & Hl' & Hd' & Hn').
        apply elem_of_cons in Hl' as [->|Hl'].
        -- congruence.
        -- by exists l', d'.
Qed.

Lemma only_appended_refl m : only_appended m m.
Proof. intros k xs E. exists []. by rewrite app_nil_r. Qed.

Lemma only_appended_trans m1 m2 m3 :
  only_appended m1 m2 → only_appended m2 m3 → only_appended m1 m3.
Proof.
  intros H12 H23 k xs E. destruct (H12 k xs E) as [ys E2].
  destruct (H23 k _ E2) as [zs E3]. exists (ys ++ zs). by rewrite app_assoc.
Qed.

Lemma elem_of_links r sig : r ∈ links sig ↔ Link r ∈ sig.
Proof.
  unfold links. rewrite list_elem_of_omap. split.
  - intros (p & Hp & E). destruct p; by simplify_eq.
  - intros Hp. by exists (Link r).
Qed.

Lemma part_fixed_labels h h' p p' :
  dec_label <$> h = dec_label <$> h' →
  part_fixed h pluginApiMap p p' → part_fixed h' pluginApiMap p p'.
Proof.
  intros E [s|r Hr|r Hr].
  - constructor.
  - constructor. by eapply resolves_labels.
  - constructor. intros Hr'. apply Hr. by eapply resolves_labels.
Qed.

Lemma part_fixed_trans h p1 p2 p3 :
  part_fixed h pluginApiMap p1 p2 → part_fixed h pluginApiMap p2 p3 →
  part_fixed h pluginApiMap p1 p3 ∧ p3 = p2.
Proof.
  intros [s|r Hr|r Hr] H23; inversion H23; subst; try done;
    split; try done; by constructor.
Qed.

Lemma signature_fixed_labels h h' sig sig' :
  dec_label <$> h = dec_label <$> h' →
  signature_fixed h pluginApiMap sig sig' → signature_fixed h' pluginApiMap sig sig'.
Proof.
  intros E. destruct sig as [s|], sig' as [s'|]; simpl; try done.
  intros H. eapply Forall2_impl; [exact H|].
  intros p p'. by apply part_fixed_labels.
Qed.

Lemma signature_fixed_trans h sig1 sig2 sig3 :
  signature_fixed h pluginApiMap sig1 sig2 →
  signature_fixed h pluginApiMap sig2 sig3 →
  signature_fixed h pluginApiMap sig1 sig3 ∧ sig3 = sig2.
Proof.
  destruct sig1 as [s1|], sig2 as [s2|], sig3 as [s3|]; simpl; try done.
  intros H12. revert s3. induction H12 as [|p1 p2 s1 s2 Hp _ IH]; intros s3 H23.
  - by inversion H23.
  - inversion H23 as [|? p3 ? s3' Hp3 Hs3]; subst.
    destruct (part_fixed_trans _ _ _ _ Hp Hp3) as [H13 ->].
    destruct (IH _ Hs3) as [IH1 [= ->]]. split; [by constructor|done].
Qed.

Lemma part_fixed_resolves h sig sig' :
  Forall2 (part_fixed h pluginApiMap) sig sig' →
  (∀ r, r ∈ links sig → resolves h pluginApiMap r) → sig' = sig.
Proof.
  induction 1 as [|p p' sig sig' Hp _ IH]; intros Hall; [done|].
  rewrite IH.
  - f_equal. destruct Hp as [s|r Hr|r Hr]; try done.
    destruct Hr. apply Hall, elem_of_links, list_elem_of_here.
  - intros r Hr%elem_of_links. apply Hall, elem_of_links.
    by apply list_elem_of_further.
Qed.

Lemma part_fixed_links h sig sig' :
  Forall2 (part_fixed h pluginApiMap) sig sig' →
  ∀ r, r ∈ links sig' → r ∈ links sig ∧ resolves h pluginApiMap r.
Proof.
  induction 1 as [|p p' sig sig' Hp _ IH]; intros r Hr.
  - by apply elem_of_links, elem_of_nil in Hr.
  - apply elem_of_links, elem_of_cons in Hr as [E|Hr].
    + destruct Hp as [s|r' Hr'|r' Hr']; simplify_eq. split; [|done].
      apply elem_of_links, list_elem_of_here.
    + destruct (IH r) as [H1 H2]; [by apply elem_of_links|].
      split; [|done]. apply elem_of_links, list_elem_of_further.
      by apply elem_of_links.
Qed.

Lemma labels_insert (h : gmap positive Declaration) (l : loc)
    (d d' : Declaration) :
  h !! l = Some d → dec_label d' = dec_label d →
  dec_label <$> <[l := d']> h = dec_label <$> h.
Proof.
  intros Hd Hl. rewrite fmap_insert. apply insert_id.
  by rewrite lookup_fmap, Hd, Hl.
Qed.

Lemma grown_refl m : grown m m.
Proof.
  split; [apply only_appended_refl|]. intros k E [x Hx]. congruence.
Qed.

Lemma grown_trans m1 m2 m3 : grown m1 m2 → grown m2 m3 → grown m1 m3.
Proof.
  intros [H12 N12] [H23 N23]. split; [by eapply only_appended_trans|].
  intros k E1 E3. destruct (m2 !! k) as [xs|] eqn:E2.
  - apply N12; [done|eauto].
  - by apply N23.
Qed.

Lemma pushable_grown m m' k : grown m m' → pushable m k ↔ pushable m' k.
Proof.
  intros [Happ Hnew]. split.
  - intros [[xs E]|Hk]; [|by right]. left.
    destruct (Happ _ _ E) as [ys E']. eauto.
  - intros [Hsome|Hk]; [|by right].
    destruct (m !! k) as [xs|] eqn:E; [left; eauto|]. right. by apply Hnew.
Qed.

Lemma processable_grown h h' m m' r :
  dec_label <$> h = dec_label <$> h' → grown m m' →
  processable h pluginApiMap m r ↔ processable h' pluginApiMap m' r.
Proof.
  intros E Hg. unfold processable. split.
  - intros [Hp Hb]. split; [done|]. intros Hr.
    apply (pushable_grown _ _ _ Hg), Hb. intros Hr'. apply Hr.
    by eapply resolves_labels.
  - intros [Hp Hb]. split; [done|]. intros Hr.
    apply (pushable_grown _ _ _ Hg), Hb. intros Hr'. apply Hr.
    by eapply resolves_labels.
Qed.

Lemma add_missing_run key item st :
  pushable (missingApiItems st) key →
  ∃ st', add_missing key item st = Some (tt, st') ∧
         decls st' = decls st ∧
         grown (missingApiItems st) (missingApiItems st') ∧
         ∃ items, missingApiItems st' !! key = Some items ∧ item ∈ items.
Proof.
  intros Hpush. unfold add_missing.
  destruct (missingApiItems st !! key) as [items|] eqn:E.
  - eexists. split_and!; [done|done| |].
    + split; simpl.
      * intros k xs Ek. destruct (decide (k = key)) as [->|Hk].
        -- rewrite lookup_insert_eq. simplify_eq. eauto.
        -- rewrite lookup_insert_ne by done. exists []. by rewrite app_nil_r.
      * intros k Ek [x Hx]. destruct (decide (k = key)) as [->|Hk]; [congruence|].
        rewrite lookup_insert_ne in Hx by done. congruence.
    + simpl. eexists. split; [apply lookup_insert_eq|].
      apply elem_of_app. right. apply list_elem_of_here.
  - destruct Hpush as [[? ?]|Hkey]; [congruence|].
    rewrite decide_False by done. eexists. split_and!; [done|done| |].
    + split; simpl.
      * intros k xs Ek. assert (k ≠ key) as Hk by congruence.
        rewrite lookup_insert_ne by done. exists []. by rewrite app_nil_r.
      * intros k Ek [x Hx]. destruct (decide (k = key)) as [->|Hk]; [done|].
        rewrite lookup_insert_ne in Hx by done. congruence.
    + simpl. eexists. split; [apply lookup_insert_eq|]. apply list_elem_of_here.
Qed.

Lemma add_missing_inv key item st st' :
  add_missing key item st = Some (tt, st') → pushable (missingApiItems st) key.
Proof.
  unfold add_missing, pushable.
  destruct (missingApiItems st !! key) as [items|]; [eauto|].
  destruct (decide (key ∈ object_prototype_keys)); [done|]. by right.
Qed.

Lemma closed_scope st api (r : Reference) :
  map_closed (decls st) pluginApiMap →
  pluginApiMap !! pluginId r = Some api →
  ∀ l, l ∈ scopeAccessor (scope r) api → is_Some (decls st !! l).
Proof.
  intros Hclosed Hapi l Hl. apply (Hclosed _ _ Hapi).
  destruct (scope r); simpl in Hl; rewrite !elem_of_app; auto.
Qed.

Lemma check_part_run p st :
  map_closed (decls st) pluginApiMap →
  (∀ r, p = Link r →
        processable (decls st) pluginApiMap (missingApiItems st) r) →
  ∃ p' st',
    check_part scope_value pluginApiMap p st = Some (p', st') ∧
    part_fixed (decls st) pluginApiMap p p' ∧
    decls st' = decls st ∧
    grown (missingApiItems st) (missingApiItems st') ∧
    (p' = p → st' = st).
Proof.
  intros Hclosed Hp. destruct p as [s|r].
  - exists (Text s), st. split_and!; try done; try constructor; apply grown_refl.
  - destruct (Hp r eq_refl) as [[api Hapi] Hpush]. simpl. rewrite Hapi. simpl.
    destruct (has_label_run (text r) (scopeAccessor (scope r) api) st)
      as (b & Hrun & Hb); [by eapply closed_scope|].
    rewrite (R_bind_Some _ _ _ _ _ Hrun). destruct b.
    + exists (Link r), st. split_and!; try done; [|apply grown_refl].
      constructor. exists api. split; [done|]. by apply Hb.
    + assert (¬ resolves (decls st) pluginApiMap r) as Hbroken.
      { intros (api' & Hapi' & Hl). simplify_eq. by apply Hb in Hl. }
      destruct (add_missing_run (pluginId r)
                  (scope_value (scope r) +:+ "." +:+ text r) st (Hpush Hbroken))
        as (st' & Hadd & Hd & Hg & _).
      exists (Text (text r)), st'. split_and!; try done.
      * by rewrite (R_bind_Some _ _ _ _ _ Hadd).
      * by constructor.
Qed.

Lemma check_part_inv p st p' st' :
  map_closed (decls st) pluginApiMap →
  check_part scope_value pluginApiMap p st = Some (p', st') →
  ∀ r, p = Link r → processable (decls st) pluginApiMap (missingApiItems st) r.
Proof.
  intros Hclosed Hrun r ->. simpl in Hrun.
  destruct (pluginApiMap !! pluginId r) as [api|] eqn:Hapi; [|done].
  simpl in Hrun. split; [eauto|]. intros Hbroken.
  destruct (has_label_run (text r) (scopeAccessor (scope r) api) st)
    as (b & Hlab & Hb); [by eapply closed_scope|].
  rewrite (R_bind_Some _ _ _ _ _ Hlab) in Hrun. destruct b.
  - destruct Hbroken. exists api. split; [done|]. by apply Hb.
  - destruct (add_missing (pluginId r)
                (scope_value (scope r) +:+ "." +:+ text r) st)
      as [[[] st1]|] eqn:Hadd; [|by rewrite R_bind_None in Hrun].
    by eapply add_missing_inv.
Qed.

(** The facts of a run, from its result. *)
Lemma check_part_facts p st p' st' :
  map_closed (decls st) pluginApiMap →
  check_part scope_value pluginApiMap p st = Some (p', st') →
  part_fixed (decls st) pluginApiMap p p' ∧
  decls st' = decls st ∧
  grown (missingApiItems st) (missingApiItems st') ∧
  (p' = p → st' = st).
Proof.
  intros Hclosed Hrun.
  destruct (check_part_run p st Hclosed (check_part_inv _ _ _ _ Hclosed Hrun))
    as (p1 & st1 & Hrun1 & Hfacts).
  rewrite Hrun in Hrun1. by injection Hrun1 as <- <-.
Qed.

Lemma map_array_run sig : ∀ st,
  map_closed (decls st) pluginApiMap →
  (∀ r, r ∈ links sig →
        processable (decls st) pluginApiMap (missingApiItems st) r) →
  ∃ sig' st',
    map_array sig (check_part scope_value pluginApiMap) st = Some (sig', st') ∧
    Forall2 (part_fixed (decls st) pluginApiMap) sig sig' ∧
    decls st' = decls st ∧
    grown (missingApiItems st) (missingApiItems st') ∧
    (sig' = sig → st' = st).
Proof.
  induction sig as [|p sig IH]; intros st Hclosed Hlinks.
  - exists [], st. split_and!; try done; try constructor; apply grown_refl.
  - destruct (check_part_run p st Hclosed) as (p' & st1 & Hrun1 & Hp & Hd1 & Hm1 & Hsame1).
    { intros r ->. apply Hlinks, elem_of_links, list_elem_of_here. }
    destruct (IH st1) as (sig' & st' & Hrun & Hsig & Hd & Hm & Hsame).
    { by rewrite Hd1. }
    { intros r Hr%elem_of_links. rewrite Hd1.
      apply (processable_grown (decls st) (decls st) _ _ r eq_refl Hm1).
      apply Hlinks, elem_of_links. by apply list_elem_of_further. }
    exists (p' :: sig'), st'. split_and!.
    + simpl. rewrite (R_bind_Some _ _ _ _ _ Hrun1).
      by rewrite (R_bind_Some _ _ _ _ _ Hrun).
    + constructor; [done|]. by rewrite <- Hd1.
    + congruence.
    + by eapply grown_trans.
    + intros [= -> ->]. rewrite Hsame by done. by apply Hsame1.
Qed.

Lemma map_array_inv sig : ∀ st sig' st',
  map_closed (decls st) pluginApiMap →
  map_array sig (check_part scope_value pluginApiMap) st = Some (sig', st') →
  ∀ r, r ∈ links sig →
       processable (decls st) pluginApiMap (missingApiItems st) r.
Proof.
  induction sig as [|p sig IH]; intros st sig' st' Hclosed Hrun r Hr.
  - by apply elem_of_nil in Hr.
  - simpl in Hrun.
    destruct (check_part scope_value pluginApiMap p st) as [[p1 st1]|] eqn:Hrun1;
      [|by rewrite R_bind_None in Hrun].
    rewrite (R_bind_Some _ _ _ _ _ Hrun1) in Hrun.
    destruct (map_array sig (check_part scope_value pluginApiMap) st1)
      as [[sig1 st2]|] eqn:Hrun2; [|by rewrite R_bind_None in Hrun].
    destruct (check_part_facts _ _ _ _ Hclosed Hrun1) as (_ & Hd1 & Hg1 & _).
    apply elem_of_links, elem_of_cons in Hr as [<-|Hr].
    + by eapply check_part_inv.
    + apply (processable_grown (decls st) (decls st) _ _ r eq_refl Hg1).
      rewrite <- Hd1. apply (IH st1 sig1 st2); [by rewrite Hd1|done|].
      by apply elem_of_links.
Qed.

Lemma map_array_facts sig st sig' st' :
  map_closed (decls st) pluginApiMap →
  map_array sig (check_part scope_value pluginApiMap) st = Some (sig', st') →
  Forall2 (part_fixed (decls st) pluginApiMap) sig sig' ∧
  decls st' = decls st ∧
  grown (missingApiItems st) (missingApiItems st') ∧
  (sig' = sig → st' = st).
Proof.
  intros Hclosed Hrun.
  destruct (map_array_run sig st Hclosed (map_array_inv _ _ _ _ Hclosed Hrun))
    as (sig1 & st1 & Hrun1 & Hfacts).
  rewrite Hrun in Hrun1. by injection Hrun1 as <- <-.
Qed.

Lemma state_eta st :
  {| decls := decls st; missingApiItems := missingApiItems st |} = st.
Proof. by destruct st. Qed.

Lemma check_declaration_run l st d :
  decls st !! l = Some d →
  map_closed (decls st) pluginApiMap →
  (∀ r, r ∈ links (default [] (dec_signature d)) →
        processable (decls st) pluginApiMap (missingApiItems st) r) →
  ∃ d' st',
    check_declaration scope_value pluginApiMap l st = Some (tt, st') ∧
    decls st' = <[l := d']> (decls st) ∧
    dec_label d' = dec_label d ∧
    signature_fixed (decls st) pluginApiMap (dec_signature d) (dec_signature d') ∧
    grown (missingApiItems st) (missingApiItems st') ∧
    (d' = d → st' = st).
Proof.
  intros Hd Hclosed Hlinks. unfold check_declaration.
  rewrite (R_bind_Some _ _ _ _ _ (read_decl_Some _ _ _ Hd)).
  destruct (dec_signature d) as [sig|] eqn:Hsig.
  - destruct (map_array_run sig st Hclosed Hlinks)
      as (sig' & st1 & Hrun & Hfix & Hd1 & Hm & Hsame).
    rewrite (R_bind_Some _ _ _ _ _ Hrun).
    unfold write_signature. rewrite Hd1, Hd.
    eexists {| dec_label := dec_label d; dec_signature := Some sig' |}, _.
    split_and!; try done.
    intros E. assert (sig' = sig) as ->.
    { pose proof (f_equal dec_signature E) as E'. simpl in E'. congruence. }
    rewrite (Hsame eq_refl), E, insert_id by done. apply state_eta.
  - exists d, st. split_and!; try done.
    + by rewrite insert_id.
    + by rewrite Hsig.
    + apply grown_refl.
Qed.

Lemma check_declaration_inv l st st' d :
  decls st !! l = Some d →
  map_closed (decls st) pluginApiMap →
  check_declaration scope_value pluginApiMap l st = Some (tt, st') →
  ∀ r, r ∈ links (default [] (dec_signature d)) →
       processable (decls st) pluginApiMap (missingApiItems st) r.
Proof.
  intros Hd Hclosed Hrun r Hr. unfold check_declaration in Hrun.
  rewrite (R_bind_Some _ _ _ _ _ (read_decl_Some _ _ _ Hd)) in Hrun.
  destruct (dec_signature d) as [sig|]; [|by apply elem_of_nil in Hr].
  simpl in Hr.
  destruct (map_array sig (check_part scope_value pluginApiMap) st)
    as [[sig1 st1]|] eqn:Hmap; [|by rewrite R_bind_None in Hrun].
  by eapply map_array_inv.
Qed.

Lemma elem_of_links_of h ls r :
  r ∈ links_of h ls ↔
  ∃ l d, l ∈ ls ∧ h !! l = Some d ∧ r ∈ links (default [] (dec_signature d)).
Proof.
  unfold links_of. rewrite list_elem_of_bind. split.
  - intros (l & Hr & Hl). destruct (h !! l) as [d|] eqn:Hd.
    + by exists l, d.
    + by apply elem_of_nil in Hr.
  - intros (l & d & Hl & Hd & Hr). exists l. by rewrite Hd.
Qed.

Lemma map_closed_dom h h' :
  dom h' = dom h → map_closed h pluginApiMap → map_closed h' pluginApiMap.
Proof.
  intros Hdom Hclosed k api Hapi l Hl.
  apply elem_of_dom. rewrite Hdom. apply elem_of_dom. by eapply Hclosed.
Qed.

(** The loop over the declarations of a plugin API. *)
Lemma forEach_check_declaration_run ls : ∀ st,
  map_closed (decls st) pluginApiMap →
  (∀ l, l ∈ ls → is_Some (decls st !! l)) →
  (∀ r, r ∈ links_of (decls st) ls →
        processable (decls st) pluginApiMap (missingApiItems st) r) →
  ∃ st',
    forEach_array ls (check_declaration scope_value pluginApiMap) st = Some (tt, st') ∧
    dec_label <$> decls st' = dec_label <$> decls st ∧
    (∀ l d, decls st !! l = Some d →
       ∃ d', decls st' !! l = Some d' ∧
             (l ∉ ls → d' = d) ∧
             (l ∈ ls → signature_fixed (decls st) pluginApiMap
                         (dec_signature d) (dec_signature d'))) ∧
    grown (missingApiItems st) (missingApiItems st') ∧
    ((∀ r, r ∈ links_of (decls st) ls → resolves (decls st) pluginApiMap r) →
     st' = st).
Proof.
  induction ls as [|l ls IH]; intros st Hclosed Hin Hlinks.
  - exists st. split_and!; try done; [|apply grown_refl].
    intros l d Hd. exists d. split_and!; try done.
    intros Hl. by apply elem_of_nil in Hl.
  - destruct (Hin l) as [d Hd]; [apply list_elem_of_here|].
    destruct (check_declaration_run l st d Hd Hclosed)
      as (d1 & st1 & Hrun1 & Hdecls1 & Hlab1 & Hfix1 & Hm1 & Hsame1).
    { intros r Hr. apply Hlinks, elem_of_links_of.
      exists l, d. split_and!; [apply list_elem_of_here|done|done]. }
    assert (dec_label <$> decls st1 = dec_label <$> decls st) as Hlabels1.
    { rewrite Hdecls1. by eapply labels_insert. }
    assert (dom (decls st1) = dom (decls st)) as Hdom1.
    { rewrite Hdecls1. apply dom_insert_lookup_L. eauto. }
    assert (∀ r, r ∈ links (default [] (dec_signature d1)) →
              r ∈ links (default [] (dec_signature d)) ∧
              resolves (decls st) pluginApiMap r) as Hsub.
    { intros r Hr. destruct (dec_signature d) as [sig|], (dec_signature d1) as [sig1|];
        simpl in Hfix1, Hr |- *; try done.
      - by eapply part_fixed_links.
      - by apply elem_of_nil in Hr. }
    destruct (IH st1) as (st' & Hrun & Hlabels & Hpost & Hm & Hsame).
    { by eapply map_closed_dom. }
    { intros l' Hl'. apply elem_of_dom. rewrite Hdom1. apply elem_of_dom.
      apply Hin. by apply list_elem_of_further. }
    { intros r (l' & d' & Hl' & Hd' & Hr)%elem_of_links_of.
      apply (processable_grown (decls st) (decls st1) _ _ r (eq_sym Hlabels1) Hm1).
      rewrite Hdecls1 in Hd'. destruct (decide (l' = l)) as [->|Hne].
      - rewrite lookup_insert_eq in Hd'. simplify_eq.
        apply Hlinks, elem_of_links_of. exists l, d.
        split_and!; [apply list_elem_of_here|done|by apply Hsub].
      - rewrite lookup_insert_ne in Hd' by done.
        apply Hlinks, elem_of_links_of. exists l', d'.
        split_and!; [by apply list_elem_of_further|done|done]. }
    exists st'. split_and!.
    + simpl. by rewrite (R_bind_Some _ _ _ _ _ Hrun1).
    + congruence.
    + intros l0 d0 Hd0. destruct (decide (l0 = l)) as [->|Hne].
      * simplify_eq. destruct (Hpost l d1) as (d' & Hd' & Hout & Hinn).
        { by rewrite Hdecls1, lookup_insert_eq. }
        exists d'. split_and!; [done| |].
        -- intros Hl. destruct Hl. apply list_elem_of_here.
        -- intros _. destruct (decide (l ∈ ls)) as [Hl|Hl].
           ++ eapply signature_fixed_trans; [done|].
              eapply signature_fixed_labels; [|by apply Hinn]. done.
           ++ by rewrite (Hout Hl).
      * destruct (Hpost l0 d0) as (d' & Hd' & Hout & Hinn).
        { by rewrite Hdecls1, lookup_insert_ne. }
        exists d'. split_and!; [done| |].
        -- intros Hl. apply Hout. intros Hl'. apply Hl.
           by apply list_elem_of_further.
        -- intros [?|Hl]%elem_of_cons; [done|].
           eapply signature_fixed_labels; [|by apply Hinn]. done.
    + by eapply grown_trans.
    + intros Hall.
      assert (d1 = d) as ->.
      { assert (dec_signature d1 = dec_signature d) as Hsigs.
        { destruct (dec_signature d) as [sig|] eqn:Hs,
            (dec_signature d1) as [sig1|] eqn:Hs1; simpl in Hfix1; try done.
          f_equal. eapply part_fixed_resolves; [done|].
          intros r Hr. apply Hall, elem_of_links_of. exists l, d.
          rewrite Hs. split_and!; [apply list_elem_of_here|done|done]. }
        clear -Hlab1 Hsigs. destruct d, d1. cbn in Hlab1, Hsigs. congruence. }
      rewrite (Hsame1 eq_refl) in *. apply Hsame.
      intros r (l' & d' & Hl' & Hd' & Hr)%elem_of_links_of.
      apply Hall, elem_of_links_of. exists l', d'.
      split_and!; [by apply list_elem_of_further|done|done].
Qed.

Lemma forEach_check_declaration_inv ls : ∀ st st',
  map_closed (decls st) pluginApiMap →
  (∀ l, l ∈ ls → is_Some (decls st !! l)) →
  forEach_array ls (check_declaration scope_value pluginApiMap) st = Some (tt, st') →
  ∀ r, r ∈ links_of (decls st) ls →
       processable (decls st) pluginApiMap (missingApiItems st) r.
Proof.
  induction ls as [|l ls IH]; intros st st' Hclosed Hin Hrun r Hr.
  - by apply elem_of_nil in Hr.
  - destruct (Hin l) as [d Hd]; [apply list_elem_of_here|].
    simpl in Hrun.
    destruct (check_declaration scope_value pluginApiMap l st)
      as [[[] st1]|] eqn:Hrun1; [|by rewrite R_bind_None in Hrun].
    rewrite (R_bind_Some _ _ _ _ _ Hrun1) in Hrun.
    pose proof (check_declaration_inv l st st1 d Hd Hclosed Hrun1) as Hhead.
    destruct (check_declaration_run l st d Hd Hclosed Hhead)
      as (d1 & st1' & Hrun1' & Hdecls1 & Hlab1 & _ & Hg1 & _).
    rewrite Hrun1 in Hrun1'. injection Hrun1' as <-.
    assert (dec_label <$> decls st1 = dec_label <$> decls st) as Hlabels1.
    { rewrite Hdecls1. by eapply labels_insert. }
    assert (dom (decls st1) = dom (decls st)) as Hdom1.
    { rewrite Hdecls1. apply dom_insert_lookup_L. eauto. }
    apply elem_of_links_of in Hr as (l' & d' & Hl' & Hd' & Hr).
    destruct (decide (l' = l)) as [->|Hne].
    + assert (d' = d) as -> by congruence. by apply Hhead.
    + apply (processable_grown (decls st) (decls st1) _ _ r (eq_sym Hlabels1) Hg1).
      apply (IH st1 st'); [by eapply map_closed_dom| |done|].
      * intros l0 Hl0. apply elem_of_dom. rewrite Hdom1. apply elem_of_dom.
        apply Hin. by apply list_elem_of_further.
      * apply elem_of_links_of. exists l', d'. split_and!; [| |done].
        -- apply elem_of_cons in Hl' as [?|?]; done.
        -- by rewrite Hdecls1, lookup_insert_ne.
Qed.

Lemma removeBrokenLinks_processable pluginApi st st' :
  map_closed (decls st) pluginApiMap →
  closed (decls st) pluginApi →
  removeBrokenLinks scope_value pluginApi pluginApiMap st = Some (tt, st') →
  ∀ r, r ∈ links_of (decls st) (listed pluginApi) →
       processable (decls st) pluginApiMap (missingApiItems st) r.
Proof.
  intros Hmap Hclosed Hrun. rewrite removeBrokenLinks_listed in Hrun.
  by eapply forEach_check_declaration_inv.
Qed.

(** X14: in a store that holds every declaration the plugin API and the
    map refer to, [removeBrokenLinks] returns normally exactly when, for
    every reference in the signatures of the declarations of the client,
    common and server arrays, the plugin it names is a key of
    [pluginApiMap] and, if the reference does not resolve, its plugin id
    is an own key of [missingApiItems] or is not the name of a property
    inherited from [Object.prototype]; otherwise it throws (on indexing
    [undefined] in [apiItemExists], or on a [push] that is not there). *)
Theorem removeBrokenLinks_succeeds_iff (pluginApi : PluginApi) (st : state) :
  map_closed (decls st) pluginApiMap →
  closed (decls st) pluginApi →
  is_Some (removeBrokenLinks scope_value pluginApi pluginApiMap st) ↔
  ∀ r, r ∈ links_of (decls st) (listed pluginApi) →
       is_Some (pluginApiMap !! pluginId r) ∧
       (¬ resolves (decls st) pluginApiMap r →
        is_Some (missingApiItems st !! pluginId r) ∨
        pluginId r ∉ object_prototype_keys).
Proof.
  intros Hmap Hclosed. split.
  - intros [[[] st'] Hres] r Hr.
    by apply (removeBrokenLinks_processable pluginApi st st').
  - intros Hlinks. rewrite removeBrokenLinks_listed.
    destruct (forEach_check_declaration_run (listed pluginApi) st Hmap Hclosed Hlinks)
      as (st' & Hrun & _). rewrite Hrun. eauto.
Qed.

(** What a successful call leaves behind. *)
Lemma removeBrokenLinks_post pluginApi st st' :
  map_closed (decls st) pluginApiMap →
  closed (decls st) pluginApi →
  removeBrokenLinks scope_value pluginApi pluginApiMap st = Some (tt, st') →
  dec_label <$> decls st' = dec_label <$> decls st ∧
  (∀ l d, decls st !! l = Some d →
     ∃ d', decls st' !! l = Some d' ∧
           (l ∉ listed pluginApi → d' = d) ∧
           (l ∈ listed pluginApi →
            signature_fixed (decls st) pluginApiMap (dec_signature d) (dec_signature d'))) ∧
  only_appended (missingApiItems st) (missingApiItems st') ∧
  ((∀ r, r ∈ links_of (decls st) (listed pluginApi) →
         resolves (decls st) pluginApiMap r) → st' = st).
Proof.
  intros Hmap Hclosed Hrun.
  pose proof (removeBrokenLinks_processable _ _ _ Hmap Hclosed Hrun) as Hlinks.
  destruct (forEach_check_declaration_run (listed pluginApi) st Hmap Hclosed Hlinks)
    as (st'' & Hrun' & Hlabels & Hpost & [Happ _] & Hsame).
  rewrite removeBrokenLinks_listed, Hrun' in Hrun. by simplify_eq.
Qed.

Lemma reported_only_appended m m' r :
  only_appended m m' → reported scope_value m r → reported scope_value m' r.
Proof.
  intros Happ (items & E & Hin). destruct (Happ _ _ E) as [ys E'].
  exists (items ++ ys). split; [done|]. apply elem_of_app. by left.
Qed.

Lemma check_part_reports r st p' st' :
  map_closed (decls st) pluginApiMap →
  check_part scope_value pluginApiMap (Link r) st = Some (p', st') →
  ¬ resolves (decls st) pluginApiMap r →
  reported scope_value (missingApiItems st') r.
Proof.
  intros Hclosed Hrun Hbroken.
  destruct (check_part_inv _ _ _ _ Hclosed Hrun r eq_refl) as [_ Hpush].
  simpl in Hrun.
  destruct (pluginApiMap !! pluginId r) as [api|] eqn:Hapi; [|done].
  simpl in Hrun.
  destruct (has_label_run (text r) (scopeAccessor (scope r) api) st)
    as (b & Hlab & Hb); [by eapply closed_scope|].
  rewrite (R_bind_Some _ _ _ _ _ Hlab) in Hrun. destruct b.
  - destruct Hbroken. exists api. split; [done|]. by apply Hb.
  - destruct (add_missing_run (pluginId r)
                (scope_value (scope r) +:+ "." +:+ text r) st (Hpush Hbroken))
      as (st1 & Hadd & _ & _ & Hrep).
    rewrite (R_bind_Some _ _ _ _ _ Hadd) in Hrun. by injection Hrun as <- <-.
Qed.

Lemma map_array_reports sig : ∀ st sig' st' r,
  map_closed (decls st) pluginApiMap →
  map_array sig (check_part scope_value pluginApiMap) st = Some (sig', st') →
  r ∈ links sig →
  ¬ resolves (decls st) pluginApiMap r →
  reported scope_value (missingApiItems st') r.
Proof.
  induction sig as [|p sig IH]; intros st sig' st' r Hclosed Hrun Hr Hbroken.
  - by apply elem_of_nil in Hr.
  - simpl in Hrun.
    destruct (check_part scope_value pluginApiMap p st) as [[p1 st1]|] eqn:Hrun1;
      [|by rewrite R_bind_None in Hrun].
    rewrite (R_bind_Some _ _ _ _ _ Hrun1) in Hrun.
    destruct (map_array sig (check_part scope_value pluginApiMap) st1)
      as [[sig1 st2]|] eqn:Hrun2; [|by rewrite R_bind_None in Hrun].
    rewrite (R_bind_Some _ _ _ _ _ Hrun2) in Hrun. injection Hrun as <- <-.
    destruct (check_part_facts _ _ _ _ Hclosed Hrun1) as (_ & Hd1 & _).
    assert (map_closed (decls st1) pluginApiMap) as Hclosed1 by (by rewrite Hd1).
    destruct (map_array_facts _ _ _ _ Hclosed1 Hrun2) as (_ & _ & [Happ _] & _).
    apply elem_of_links, elem_of_cons in Hr as [<-|Hr].
    + eapply reported_only_appended; [done|].
      by apply (check_part_reports r st p1 st1).
    + apply (IH st1 sig1 st2 r); [done|done|by apply elem_of_links|].
      by rewrite Hd1.
Qed.

Lemma forEach_check_declaration_reports ls : ∀ st st' r,
  map_closed (decls st) pluginApiMap →
  (∀ l, l ∈ ls → is_Some (decls st !! l)) →
  forEach_array ls (check_declaration scope_value pluginApiMap) st = Some (tt, st') →
  r ∈ links_of (decls st) ls →
  ¬ resolves (decls st) pluginApiMap r →
  reported scope_value (missingApiItems st') r.
Proof.
  induction ls as [|l ls IH]; intros st st' r Hclosed Hin Hrun Hr Hbroken.
  - by apply elem_of_nil in Hr.
  - destruct (Hin l) as [d Hd]; [apply list_elem_of_here|].
    simpl in Hrun.
    destruct (check_declaration scope_value pluginApiMap l st)
      as [[[] st1]|] eqn:Hrun1; [|by rewrite R_bind_None in Hrun].
    rewrite (R_bind_Some _ _ _ _ _ Hrun1) in Hrun.
    pose proof (check_declaration_inv l st st1 d Hd Hclosed Hrun1) as Hhead.
    destruct (check_declaration_run l st d Hd Hclosed Hhead)
      as (d1 & st1' & Hrun1' & Hdecls1 & Hlab1 & _ & _ & _).
    rewrite Hrun1 in Hrun1'. injection Hrun1' as <-.
    assert (dec_label <$> decls st1 = dec_label <$> decls st) as Hlabels1.
    { rewrite Hdecls1. by eapply labels_insert. }
    assert (dom (decls st1) = dom (decls st)) as Hdom1.
    { rewrite Hdecls1. apply dom_insert_lookup_L. eauto. }
    assert (map_closed (decls st1) pluginApiMap) as Hclosed1
      by (by eapply map_closed_dom).
    assert (∀ l0, l0 ∈ ls → is_Some (decls st1 !! l0)) as Hin1.
    { intros l0 Hl0. apply elem_of_dom. rewrite Hdom1. apply elem_of_dom.
      apply Hin. by apply list_elem_of_further. }
    assert (only_appended (missingApiItems st1) (missingApiItems st')) as Happ.
    { destruct (forEach_check_declaration_run ls st1 Hclosed1 Hin1)
        as (? & Hrun' & _ & _ & [Happ _] & _).
      - by eapply forEach_check_declaration_inv.
      - rewrite Hrun in Hrun'. by injection Hrun' as <-. }
    apply elem_of_links_of in Hr as (l' & d' & Hl' & Hd' & Hr).
    destruct (decide (l' = l)) as [->|Hne].
    + assert (d' = d) as -> by congruence.
      eapply reported_only_appended; [done|].
      unfold check_declaration in Hrun1.
      rewrite (R_bind_Some _ _ _ _ _ (read_decl_Some _ _ _ Hd)) in Hrun1.
      destruct (dec_signature d) as [sig|]; [|by apply elem_of_nil in Hr].
      simpl in Hr.
      destruct (map_array sig (check_part scope_value pluginApiMap) st)
        as [[sig1 st2]|] eqn:Hmap; [|by rewrite R_bind_None in Hrun1].
      rewrite (R_bind_Some _ _ _ _ _ Hmap) in Hrun1.
      unfold write_signature in Hrun1.
      destruct (decls st2 !! l); [|done]. injection Hrun1 as <-. simpl.
      by apply (map_array_reports sig st sig1 st2 r).
    + apply (IH st1 st' r); [done|done|done| |].
      * apply elem_of_links_of. exists l', d'. split_and!; [| |done].
        -- apply elem_of_cons in Hl' as [?|?]; done.
        -- by rewrite Hdecls1, lookup_insert_ne.
      * intros Hres. apply Hbroken. by eapply resolves_labels.
Qed.

(** X15: a call that returns keeps the set of declarations and every
    label; it leaves every declaration outside the three arrays and
    every declaration without signature as it was, and keeps the length
    of every signature. *)
Theorem removeBrokenLinks_frame (pluginApi : PluginApi) (st st' : state) :
  map_closed (decls st) pluginApiMap →
  closed (decls st) pluginApi →
  removeBrokenLinks scope_value pluginApi pluginApiMap st = Some (tt, st') →
  dom (decls st') = dom (decls st) ∧
  ∀ l d, decls st !! l = Some d →
    ∃ d', decls st' !! l = Some d' ∧
          dec_label d' = dec_label d ∧
          (l ∉ listed pluginApi → d' = d) ∧
          (dec_signature d = None → d' = d) ∧
          length <$> dec_signature d' = length <$> dec_signature d.
Proof.
  intros Hmap Hclosed Hrun.
  destruct (removeBrokenLinks_post _ _ _ Hmap Hclosed Hrun)
    as (Hlabels & Hpost & _).
  split.
  { rewrite <- (dom_fmap_L dec_label (decls st')), Hlabels. apply dom_fmap_L. }
  intros l d Hd. destruct (Hpost l d Hd) as (d' & Hd' & Hout & Hinn).
  assert (dec_label d' = dec_label d) as Hlab.
  { assert ((dec_label <$> decls st') !! l = (dec_label <$> decls st) !! l) as E
      by (by rewrite Hlabels).
    rewrite !lookup_fmap, Hd, Hd' in E. by injection E. }
  assert (l ∈ listed pluginApi → dec_signature d = None → dec_signature d' = None) as Hnone.
  { intros Hl Hs. specialize (Hinn Hl). rewrite Hs in Hinn.
    by destruct (dec_signature d'). }
  exists d'. split_and!; [done|done|done| |].
  - intros Hs. destruct (decide (l ∈ listed pluginApi)) as [Hl|Hl]; [|by apply Hout].
    specialize (Hnone Hl Hs). clear -Hlab Hs Hnone.
    destruct d, d'. cbn in Hlab, Hs, Hnone. congruence.
  - destruct (decide (l ∈ listed pluginApi)) as [Hl|Hl]; [|by rewrite (Hout Hl)].
    specialize (Hinn Hl).
    destruct (dec_signature d) as [sig|], (dec_signature d') as [sig'|]; try done.
    simpl. f_equal. symmetry. by eapply Forall2_length.
Qed.

(** X16: after a call that returns, the signature of every declaration
    of the three arrays is the old one element by element: a string is
    kept, a reference that resolves (its plugin has a declaration of
    that label in the array of that scope) is kept, a reference that
    does not is replaced by its text. *)
Theorem removeBrokenLinks_signatures (pluginApi : PluginApi) (st st' : state) :
  map_closed (decls st) pluginApiMap →
  closed (decls st) pluginApi →
  removeBrokenLinks scope_value pluginApi pluginApiMap st = Some (tt, st') →
  ∀ l d, l ∈ listed pluginApi → decls st !! l = Some d →
    ∃ d', decls st' !! l = Some d' ∧
          signature_fixed (decls st) pluginApiMap (dec_signature d) (dec_signature d').
Proof.
  intros Hmap Hclosed Hrun l d Hl Hd.
  destruct (removeBrokenLinks_post _ _ _ Hmap Hclosed Hrun) as (_ & Hpost & _).
  destruct (Hpost l d Hd) as (d' & Hd' & _ & Hinn). exists d'. auto.
Qed.

(** X17: after a call that returns, every reference left in the
    signatures of the declarations of the three arrays resolves, and a
    second call with the same arguments returns and changes nothing,
    neither a signature nor [missingApiItems]. *)
Theorem removeBrokenLinks_resolved (pluginApi : PluginApi) (st st' : state) :
  map_closed (decls st) pluginApiMap →
  closed (decls st) pluginApi →
  removeBrokenLinks scope_value pluginApi pluginApiMap st = Some (tt, st') →
  (∀ r, r ∈ links_of (decls st') (listed pluginApi) →
        resolves (decls st') pluginApiMap r) ∧
  removeBrokenLinks scope_value pluginApi pluginApiMap st' = Some (tt, st').
Proof.
  intros Hmap Hclosed Hrun.
  destruct (removeBrokenLinks_post _ _ _ Hmap Hclosed Hrun)
    as (Hlabels & Hpost & _).
  assert (∀ r, r ∈ links_of (decls st') (listed pluginApi) →
               resolves (decls st') pluginApiMap r) as Hres.
  { intros r (l & d' & Hl & Hd' & Hr)%elem_of_links_of.
    destruct (Hclosed l Hl) as [d Hd].
    destruct (Hpost l d Hd) as (d'' & Hd'' & _ & Hinn).
    assert (d'' = d') as -> by congruence.
    specialize (Hinn Hl). eapply resolves_labels; [done|].
    destruct (dec_signature d) as [sig|], (dec_signature d') as [sig'|];
      simpl in Hinn, Hr; try done.
    - by eapply part_fixed_links.
    - by apply elem_of_nil in Hr. }
  split; [done|].
  assert (dom (decls st') = dom (decls st)) as Hdom.
  { rewrite <- (dom_fmap_L dec_label (decls st')), Hlabels. apply dom_fmap_L. }
  destruct (forEach_check_declaration_run (listed pluginApi) st')
    as (st'' & Hrun' & _ & _ & _ & Hsame).
  - by eapply map_closed_dom.
  - intros l Hl. apply elem_of_dom. rewrite Hdom. apply elem_of_dom.
    by apply Hclosed.
  - intros r Hr. split.
    + destruct (Hres r Hr) as (api & Hapi & _). eauto.
    + intros Hbroken. destruct Hbroken. by apply Hres.
  - rewrite removeBrokenLinks_listed, Hrun'. by rewrite (Hsame Hres).
Qed.

(** X18: a call that returns only appends to the entries of
    [missingApiItems]; for every reference of the signatures that does
    not resolve, the entry of its plugin id holds the scope value, a dot
    and the text of the reference; when every reference resolves the
    call changes nothing. *)
Theorem removeBrokenLinks_reports (pluginApi : PluginApi) (st st' : state) :
  map_closed (decls st) pluginApiMap →
  closed (decls st) pluginApi →
  removeBrokenLinks scope_value pluginApi pluginApiMap st = Some (tt, st') →
  only_appended (missingApiItems st) (missingApiItems st') ∧
  (∀ r, r ∈ links_of (decls st) (listed pluginApi) →
        ¬ resolves (decls st) pluginApiMap r →
        reported scope_value (missingApiItems st') r) ∧
  ((∀ r, r ∈ links_of (decls st) (listed pluginApi) →
         resolves (decls st) pluginApiMap r) → st' = st).
Proof.
  intros Hmap Hclosed Hrun.
  destruct (removeBrokenLinks_post _ _ _ Hmap Hclosed Hrun)
    as (_ & _ & Happ & Hsame).
  split_and!; [done| |done].
  intros r Hr Hbroken. rewrite removeBrokenLinks_listed in Hrun.
  by eapply forEach_check_declaration_reports.
Qed.

End facts.

Lemma sample_closed : closed sample_decls sample_api.
Proof.
  intros l Hl. simpl in Hl.
  apply elem_of_cons in Hl as [->|Hl]; [by eexists|].
  apply elem_of_cons in Hl as [->|Hl]; [by eexists|].
  by apply elem_of_nil in Hl.
Qed.

Lemma sample_map_closed : map_closed sample_decls sample_map.
Proof.
  intros k api Hk. unfold sample_map in Hk.
  apply lookup_singleton_Some in Hk as [<- <-]. apply sample_closed.
Qed.

Lemma removeBrokenLinks_succeeds_iff_witness :
  map_closed (decls sample_state) sample_map ∧
  closed (decls sample_state) sample_api ∧
  (is_Some (removeBrokenLinks sample_scope_value sample_api sample_map sample_state) ↔
   ∀ r, r ∈ links_of (decls sample_state) (listed sample_api) →
        is_Some (sample_map !! pluginId r) ∧
        (¬ resolves (decls sample_state) sample_map r →
         is_Some (missingApiItems sample_state !! pluginId r) ∨
         pluginId r ∉ object_prototype_keys)).
Proof.
  split_and!; [exact sample_map_closed|exact sample_closed|].
  apply (removeBrokenLinks_succeeds_iff sample_scope_value sample_map
           sample_api sample_state).
  - exact sample_map_closed.
  - exact sample_closed.
Defined.

Lemma removeBrokenLinks_frame_witness :
  map_closed (decls sample_state) sample_map ∧
  closed (decls sample_state) sample_api ∧
  removeBrokenLinks sample_scope_value sample_api sample_map sample_state =
    Some (tt, sample_state_after) ∧
  dom (decls sample_state_after) = dom (decls sample_state) ∧
  ∀ l d, decls sample_state !! l = Some d →
    ∃ d', decls sample_state_after !! l = Some d' ∧
          dec_label d' = dec_label d ∧
          (l ∉ listed sample_api → d' = d) ∧
          (dec_signature d = None → d' = d) ∧
          length <$> dec_signature d' = length <$> dec_signature d.
Proof.
  split_and!; [exact sample_map_closed|exact sample_closed|vm_compute; reflexivity|..];
    apply (removeBrokenLinks_frame sample_scope_value sample_map sample_api
             sample_state sample_state_after);
    first [exact sample_map_closed|exact sample_closed|vm_compute; reflexivity].
Defined.

Lemma removeBrokenLinks_signatures_witness :
  map_closed (decls sample_state) sample_map ∧
  closed (decls sample_state) sample_api ∧
  removeBrokenLinks sample_scope_value sample_api sample_map sample_state =
    Some (tt, sample_state_after) ∧
  ∀ l d, l ∈ listed sample_api → decls sample_state !! l = Some d →
    ∃ d', decls sample_state_after !! l = Some d' ∧
          signature_fixed (decls sample_state) sample_map (dec_signature d) (dec_signature d').
Proof.
  split_and!; [exact sample_map_closed|exact sample_closed|vm_compute; reflexivity|].
  apply (removeBrokenLinks_signatures sample_scope_value sample_map sample_api
           sample_state sample_state_after);
    first [exact sample_map_closed|exact sample_closed|vm_compute; reflexivity].
Defined.

Lemma removeBrokenLinks_resolved_witness :
  map_closed (decls sample_state) sample_map ∧
  closed (decls sample_state) sample_api ∧
  removeBrokenLinks sample_scope_value sample_api sample_map sample_state =
    Some (tt, sample_state_after) ∧
  (∀ r, r ∈ links_of (decls sample_state_after) (listed sample_api) →
        resolves (decls sample_state_after) sample_map r) ∧
  removeBrokenLinks sample_scope_value sample_api sample_map sample_state_after =
    Some (tt, sample_state_after).
Proof.
  split_and!; [exact sample_map_closed|exact sample_closed|vm_compute; reflexivity|..];
    apply (removeBrokenLinks_resolved sample_scope_value sample_map sample_api
             sample_state sample_state_after);
    first [exact sample_map_closed|exact sample_closed|vm_compute; reflexivity].
Defined.

Lemma removeBrokenLinks_reports_witness :
  map_closed (decls sample_state) sample_map ∧
  closed (decls sample_state) sample_api ∧
  removeBrokenLinks sample_scope_value sample_api sample_map sample_state =
    Some (tt, sample_state_after) ∧
  only_appended (missingApiItems sample_state) (missingApiItems sample_state_after) ∧
  (∀ r, r ∈ links_of (decls sample_state) (listed sample_api) →
        ¬ resolves (decls sample_state) sample_map r →
        reported sample_scope_value (missingApiItems sample_state_after) r) ∧
  ((∀ r, r ∈ links_of (decls sample_state) (listed sample_api) →
         resolves (decls sample_state) sample_map r) →
   sample_state_after = sample_state).
Proof.
  split_and!; [exact sample_map_closed|exact sample_closed|vm_compute; reflexivity|..];
    apply (removeBrokenLinks_reports sample_scope_value sample_map sample_api
             sample_state sample_state_after);
    first [exact sample_map_closed|exact sample_closed|vm_compute; reflexivity].
Defined.

(** A reference to a plugin that is not in the map: the call throws. *)
Example removeBrokenLinks_absent_plugin :
  removeBrokenLinks sample_scope_value sample_api sample_map
    {| decls := <[2%positive := {| dec_label := "Bar";
                                   dec_signature := Some [Link to_nowhere] |}]> sample_decls;
       missingApiItems := ∅ |} = None.
Proof. vm_compute. reflexivity. Qed.

(** A broken reference to a plugin named [constructor] that is in the
    map: with no own entry of that name in [missingApiItems] the call
    throws, with one it returns. *)
Example removeBrokenLinks_inherited_key :
  removeBrokenLinks sample_scope_value constructor_api constructor_map
    {| decls := constructor_decls; missingApiItems := ∅ |} = None ∧
  removeBrokenLinks sample_scope_value constructor_api constructor_map
    {| decls := constructor_decls; missingApiItems := {["constructor" := []]} |} =
  Some (tt, {| decls := {[1%positive := {| dec_label := "Foo";
                                            dec_signature := Some [Text "Gone"] |}]};
               missingApiItems := {["constructor" := ["public.Gone"]]} |}).
Proof. split; vm_compute; reflexivity. Qed.

Example removeBrokenLinks_sample :
  removeBrokenLinks sample_scope_value sample_api sample_map sample_state =
  Some (tt, sample_state_after).
Proof. vm_compute. reflexivity. Qed.

End BrokenLinksFacts.
